(** * trackernew: the phone-location service of [server.py]

    A shallow embedding of the Flask/MongoDB service in [src/server.py]
    and the properties its specification states about it.

    The Python values that reach the views are JSON values; strings are
    sequences of Unicode code points, floats are IEEE-754 binary64 values
    (the standard library's [spec_float]), the MongoDB collection is a list
    of documents under a unique index on [phone], and a view is a small
    program over the effects the source performs: reading the clock,
    calling the collection, logging. What the service does not decide,
    the readings of the clock and the failures of the store, is an
    environment given to the run.

    [src/trackernew.py], the in-memory variant that the specification
    sets aside as superseded, is not part of this development: as
    written it does not compile (a no-break space in its last line) and
    its fourth line refers to the undefined name [_name_], so its views
    are never defined. *)

From Stdlib Require Import ZArith NArith PeanoNat List Bool String Ascii Lia Sorted.
From Stdlib Require Import QArith.
Close Scope Q_scope.
From Stdlib Require Import SpecFloat.
Import ListNotations.

Set Warnings "-register-all".

(* ================================================================== *)
(** * Python strings *)
(* ================================================================== *)

Module PyStr.

Local Open Scope N_scope.

(** A Python [str] is a sequence of Unicode code points. *)
Definition str := list N.

(** An ASCII literal as a [str]. *)
Definition u (s : string) : str :=
  map N_of_ascii (list_ascii_of_string s).
Arguments u s%_string.

Definition in_range (lo hi c : N) : bool := (lo <=? c) && (c <=? hi).

(** [str.isspace] on one character (CPython's [_PyUnicode_IsWhitespace]). *)
Definition isspace (c : N) : bool :=
  in_range 0x09 0x0D c || in_range 0x1C 0x20 c || (c =? 0x85)
  || (c =? 0xA0) || (c =? 0x1680) || in_range 0x2000 0x200A c
  || (c =? 0x2028) || (c =? 0x2029) || (c =? 0x202F)
  || (c =? 0x205F) || (c =? 0x3000).

Fixpoint lstrip (s : str) : str :=
  match s with
  | c :: t => if isspace c then lstrip t else s
  | [] => []
  end.

Definition rstrip (s : str) : str := rev (lstrip (rev s)).

(** [str.strip()] with no argument. *)
Definition strip (s : str) : str := rstrip (lstrip s).

(** First code points of the runs of ten consecutive decimal digits
    (general category Nd, Unicode 15.0); the mathematical digits
    U+1D7CE..U+1D7FF are five such runs and are listed apart. *)
Definition decimal_runs : list N :=
  [ 0x0030; 0x0660; 0x06F0; 0x07C0; 0x0966; 0x09E6; 0x0A66; 0x0AE6;
    0x0B66; 0x0BE6; 0x0C66; 0x0CE6; 0x0D66; 0x0DE6; 0x0E50; 0x0ED0;
    0x0F20; 0x1040; 0x1090; 0x17E0; 0x1810; 0x1946; 0x19D0; 0x1A80;
    0x1A90; 0x1B50; 0x1BB0; 0x1C40; 0x1C50; 0xA620; 0xA8D0; 0xA900;
    0xA9D0; 0xA9F0; 0xAA50; 0xABF0; 0xFF10; 0x104A0; 0x10D30; 0x11066;
    0x110F0; 0x11136; 0x111D0; 0x112F0; 0x11450; 0x114D0; 0x11650;
    0x116C0; 0x11730; 0x118E0; 0x11950; 0x11C50; 0x11D50; 0x11DA0;
    0x11F50; 0x16A60; 0x16AC0; 0x16B50; 0x1E140; 0x1E2F0; 0x1E4F0;
    0x1E950; 0x1FBF0 ].

(** The decimal value of a character, when it has one
    ([Py_UNICODE_TODECIMAL]). *)
Definition todecimal (c : N) : option N :=
  if in_range 0x1D7CE 0x1D7FF c then Some ((c - 0x1D7CE) mod 10)
  else match find (fun b => in_range b (b + 9) c) decimal_runs with
       | Some b => Some (c - b)
       | None => None
       end.

(** [Py_UNICODE_ISDECIMAL]: what [\d] matches in a [str] pattern
    compiled without [re.ASCII]. *)
Definition isdecimal (c : N) : bool :=
  match todecimal c with Some _ => true | None => false end.

(** The ten characters ['0'..'9']. *)
Definition is_ascii_digit (c : N) : bool := in_range 0x30 0x39 c.

Definition eqb (a b : str) : bool :=
  if list_eq_dec N.eq_dec a b then true else false.

End PyStr.
Import PyStr.

(* ================================================================== *)
(** * The fragment of [re] that [PHONE_REGEX] uses *)
(* ================================================================== *)

Module Re.

Inductive regex :=
| Bol                              (* ^ *)
| Eol                              (* $ *)
| Chr (c : N)                      (* a literal character *)
| Digit                            (* \d *)
| Opt (r : regex)                  (* r? *)
| Rep (lo hi : nat) (r : regex)    (* r{lo,hi} *)
| Cat (r1 r2 : regex).             (* r1 r2 *)

(** A position in the subject: how many characters are behind it and
    what is left in front of it. *)
Record cursor := { pos : nat; rest : str }.

Definition advance (c : cursor) (t : str) : cursor :=
  {| pos := S (pos c); rest := t |}.

Definition start (s : str) : cursor := {| pos := 0; rest := s |}.

(** Greedy bounded repetition: every way to take between [lo] and [hi]
    steps, longest first. *)
Fixpoint rep_from (step : cursor -> list cursor) (lo hi : nat) (c : cursor)
  : list cursor :=
  match hi with
  | O => if (lo =? 0)%nat then [c] else []
  | S hi' =>
      flat_map (rep_from step (Nat.pred lo) hi') (step c)
      ++ (if (lo =? 0)%nat then [c] else [])
  end.

(** All the cursors at which a match of [r] started at [c] can end, in
    the order the backtracking matcher tries them. Without
    [re.MULTILINE], [^] holds at the start of the subject only and [$]
    at its end or just before a newline that ends it. *)
Fixpoint run (r : regex) (c : cursor) : list cursor :=
  match r with
  | Bol => if (pos c =? 0)%nat then [c] else []
  | Eol => match rest c with
           | [] => [c]
           | [x] => if (x =? 0x0A)%N then [c] else []
           | _ => []
           end
  | Chr x => match rest c with
             | y :: t => if (x =? y)%N then [advance c t] else []
             | [] => []
             end
  | Digit => match rest c with
             | y :: t => if isdecimal y then [advance c t] else []
             | [] => []
             end
  | Opt r1 => run r1 c ++ [c]
  | Rep lo hi r1 => rep_from (run r1) lo hi c
  | Cat r1 r2 => flat_map (run r2) (run r1 c)
  end.

(** [pattern.match(s)]: the first match anchored at the start of [s],
    or [None]. *)
Definition match_ (r : regex) (s : str) : option cursor :=
  hd_error (run r (start s)).

End Re.

(* ================================================================== *)
(** * Python values *)
(* ================================================================== *)

(** What [json.loads] can produce, which is all a request body can hold. *)
Inductive pyval :=
| PNone
| PBool (b : bool)
| PInt (z : Z)
| PFloat (f : spec_float)
| PStr (s : str)
| PList (l : list pyval)
| PDict (d : list (str * pyval)).

(** [bool(x)] for the result of [pattern.match]. *)
Definition truthy {A} (o : option A) : bool :=
  match o with Some _ => true | None => false end.

(** Python exceptions that the modelled code can meet. *)
Inductive exn :=
| TypeError
| ValueError
| OverflowError
| AttributeError
| BadRequest
| PyMongoError (msg : str).

(** The outcome of evaluating a Python expression. *)
Inductive result (A : Type) :=
| Ok (a : A)
| Raise (e : exn).
Arguments Ok {A} a.
Arguments Raise {A} e.

(* ================================================================== *)
(** * Python floats *)
(* ================================================================== *)

Module PyFloat.

Local Open Scope Z_scope.

(** binary64 *)
Definition prec : Z := 53.
Definition emax : Z := 1024.

Definition leb : spec_float -> spec_float -> bool := SFleb.

Definition is_nan (f : spec_float) : bool :=
  match f with S754_nan => true | _ => false end.

Definition is_inf (f : spec_float) : bool :=
  match f with S754_infinity _ => true | _ => false end.

(** The binary64 value nearest to [(-1)^neg * m * 10^e10], ties to even:
    the value of a decimal literal. *)
Definition of_decimal (neg : bool) (m : N) (e10 : Z) : spec_float :=
  match m with
  | N0 => S754_zero neg
  | Npos p =>
      match e10 with
      | Zneg n =>
          let '(q, e, l) :=
            SFdiv_core_binary prec emax (Zpos p) 0 (10 ^ Zpos n) 0 in
          binary_round_aux prec emax neg q e l
      | _ =>
          match Zpos p * 10 ^ e10 with
          | Zpos v => binary_round prec emax neg v 0
          | _ => S754_zero neg
          end
      end
  end.

(** The binary64 value nearest to an integer, ties to even. *)
Definition of_Z (z : Z) : spec_float := binary_normalize prec emax z 0 false.

(** [float(n)] for an [int]: [OverflowError] beyond the finite range. *)
Definition of_int (z : Z) : result spec_float :=
  let f := of_Z z in
  if is_inf f then Raise OverflowError else Ok f.

(** ** [float(s)] for a [str] *)

(** [_PyUnicode_TransformDecimalAndSpaceToASCII] on one character. *)
Definition to_ascii (c : N) : N :=
  if (c <? 127)%N then c
  else if isspace c then 0x20%N
  else match todecimal c with
       | Some d => (0x30 + d)%N
       | None => 0x3F%N
       end.

(** C's [isspace] in the C locale. *)
Definition c_isspace (c : N) : bool :=
  (c =? 0x20)%N || in_range 0x09 0x0D c.

Fixpoint c_lstrip (s : str) : str :=
  match s with
  | c :: t => if c_isspace c then c_lstrip t else s
  | [] => []
  end.

Definition c_strip (s : str) : str :=
  rev (c_lstrip (rev (c_lstrip s))).

Definition underscore : N := 0x5F%N.

(** Underscores may stand between two digits only; the result is the
    text without them. *)
Fixpoint drop_underscores (prev : N) (s : str) : option str :=
  match s with
  | [] => if (prev =? underscore)%N then None else Some []
  | c :: t =>
      if (c =? underscore)%N then
        if is_ascii_digit prev then drop_underscores c t else None
      else if (prev =? underscore)%N && negb (is_ascii_digit c) then None
      else option_map (cons c) (drop_underscores c t)
  end.

Definition lower (c : N) : N :=
  if in_range 0x41 0x5A c then (c + 32)%N else c.

(** An optional sign: whether it is a minus, and what follows it. *)
Definition take_sign (s : str) : bool * str :=
  match s with
  | c :: t => if (c =? 0x2D)%N then (true, t)
              else if (c =? 0x2B)%N then (false, t)
              else (false, s)
  | [] => (false, [])
  end.

(** The longest prefix of ASCII digits, as digit values, and the rest. *)
Fixpoint take_digits (s : str) : list N * str :=
  match s with
  | c :: t => if is_ascii_digit c
              then let '(ds, r) := take_digits t in ((c - 0x30)%N :: ds, r)
              else ([], s)
  | [] => ([], [])
  end.

Definition int_of_digits (ds : list N) : N :=
  fold_left (fun acc d => (10 * acc + d)%N) ds 0%N.

(** [inf], [infinity] and [nan], in any case, after an optional sign. *)
Definition parse_inf_or_nan (s : str) : option spec_float :=
  let '(neg, r) := take_sign s in
  let w := map lower r in
  if PyStr.eqb w (u "inf") || PyStr.eqb w (u "infinity")
  then Some (S754_infinity neg)
  else if PyStr.eqb w (u "nan") then Some S754_nan
  else None.

(** A decimal literal: sign, digits with an optional point, optional
    exponent; at least one digit in the mantissa and in the exponent. *)
Definition parse_decimal (s : str) : option spec_float :=
  let '(neg, s1) := take_sign s in
  let '(ip, s2) := take_digits s1 in
  let '(fp, s3) :=
    match s2 with
    | c :: r => if (c =? 0x2E)%N then take_digits r else ([], s2)
    | [] => ([], [])
    end in
  match ip ++ fp with
  | [] => None
  | _ =>
      let m := int_of_digits (ip ++ fp) in
      let shift := Z.of_nat (List.length fp) in
      match s3 with
      | [] => Some (of_decimal neg m (- shift))
      | c :: r =>
          if (lower c =? 0x65)%N then
            let '(eneg, r1) := take_sign r in
            match take_digits r1 with
            | (d :: ds, []) =>
                let e := Z.of_N (int_of_digits (d :: ds)) in
                Some (of_decimal neg m ((if eneg then - e else e) - shift))
            | _ => None
            end
          else None
      end
  end.

(** [float(s)]: [None] stands for [ValueError]. *)
Definition of_str (s : str) : option spec_float :=
  match drop_underscores 0%N (map to_ascii s) with
  | None => None
  | Some t =>
      match parse_inf_or_nan (c_strip t) with
      | Some f => Some f
      | None => parse_decimal (c_strip t)
      end
  end.

(** [float(x)] *)
Definition float (x : pyval) : result spec_float :=
  match x with
  | PFloat f => Ok f
  | PInt z => of_int z
  | PBool b => Ok (of_Z (if b then 1 else 0))
  | PStr s => match of_str s with
              | Some f => Ok f
              | None => Raise ValueError
              end
  | PNone | PList _ | PDict _ => Raise TypeError
  end.

(** The literal [d.ddd], written as the integer [m] and the number of
    digits after the point. *)
Definition lit (m : Z) (frac : nat) : spec_float :=
  of_decimal (m <? 0) (Z.abs_N m) (- Z.of_nat frac).

End PyFloat.

(* ================================================================== *)
(** * server.py: validation *)
(* ================================================================== *)

(** [PHONE_REGEX = re.compile(r"^\+?\d{7,15}$")] *)
Definition PHONE_REGEX : Re.regex :=
  Re.Cat Re.Bol
    (Re.Cat (Re.Opt (Re.Chr 0x2B%N))
       (Re.Cat (Re.Rep 7 15 Re.Digit) Re.Eol)).

Definition validate_phone (phone : pyval) : bool :=
  match phone with
  | PStr s => truthy (Re.match_ PHONE_REGEX (strip s))
  | _ => false
  end.


(** The [try] block converts both, the [except] clause answers two of the
    exceptions [float] can raise, and any other one leaves the function. *)
Definition validate_lat_lon (lat lon : pyval) : result bool :=
  match
    match PyFloat.float lat with
    | Ok lat' =>
        match PyFloat.float lon with
        | Ok lon' => Ok (lat', lon')
        | Raise e => Raise e
        end
    | Raise e => Raise e
    end
  with
  | Raise TypeError | Raise ValueError => Ok false
  | Raise e => Raise e
  | Ok (lat', lon') =>
      if negb (PyFloat.leb (PyFloat.lit (-900) 1) lat'
               && PyFloat.leb lat' (PyFloat.lit 900 1)
               && (PyFloat.leb (PyFloat.lit (-1800) 1) lon'
                   && PyFloat.leb lon' (PyFloat.lit 1800 1)))
      then Ok false
      else Ok true
  end.

(* ================================================================== *)
(** * Time *)
(* ================================================================== *)

(** A naive [datetime.datetime], as [datetime.utcnow()] returns it. *)
Record datetime := {
  year : Z; month : Z; day : Z;
  hour : Z; minute : Z; second : Z; microsecond : Z
}.

Module DateTime.

Local Open Scope Z_scope.

Definition fields (d : datetime) : list Z :=
  [year d; month d; day d; hour d; minute d; second d; microsecond d].

(** Lexicographic order, the order of tuples. *)
Fixpoint lex_leb (a b : list Z) : bool :=
  match a, b with
  | x :: a', y :: b' => (x <? y) || ((x =? y) && lex_leb a' b')
  | [], _ => true
  | _ :: _, [] => false
  end.

(** [a <= b] on datetimes. *)
Definition leb (a b : datetime) : bool := lex_leb (fields a) (fields b).

(** The [width] low decimal digits of [n], most significant first:
    the [%0<width>d] of a number that fits. *)
Fixpoint zero_padded (width : nat) (n : Z) : str :=
  match width with
  | O => []
  | S w => zero_padded w (n / 10) ++ [Z.to_N (0x30 + n mod 10)]
  end.

(** [d.isoformat()] *)
Definition isoformat (d : datetime) : str :=
  zero_padded 4 (year d) ++ u "-" ++ zero_padded 2 (month d) ++ u "-"
  ++ zero_padded 2 (day d) ++ u "T" ++ zero_padded 2 (hour d) ++ u ":"
  ++ zero_padded 2 (minute d) ++ u ":" ++ zero_padded 2 (second d)
  ++ (if microsecond d =? 0 then []
      else u "." ++ zero_padded 6 (microsecond d)).

End DateTime.

(* ================================================================== *)
(** * The MongoDB collection *)
(* ================================================================== *)

(** The sub-document [{"latitude": ..., "longitude": ...}]. *)
Record coords := { latitude : spec_float; longitude : spec_float }.

(** A document of the collection, as the service writes and reads it. *)
Record document := {
  phone : str;
  location : coords;
  updated_at : datetime
}.

Module Mongo.

Definition collection := list document.

(** A BSON date keeps milliseconds: what is stored of a [datetime]. *)
Definition bson_datetime (d : datetime) : datetime :=
  {| year := year d; month := month d; day := day d;
     hour := hour d; minute := minute d; second := second d;
     microsecond := (microsecond d / 1000 * 1000)%Z |}.

Definition has_phone (p : str) (d : document) : bool := PyStr.eqb (phone d) p.

(** [find_one({"phone": p})] *)
Definition find_one (p : str) (c : collection) : option document :=
  find (has_phone p) c.

(** [$set] of [location] and [updated_at] on the first document that
    matches [{"phone": p}], if there is one. *)
Fixpoint set_first (p : str) (l : coords) (t : datetime) (c : collection)
  : option collection :=
  match c with
  | [] => None
  | d :: r =>
      if has_phone p d
      then Some ({| phone := phone d; location := l; updated_at := t |} :: r)
      else option_map (cons d) (set_first p l t r)
  end.

(** [update_one({"phone": p}, {"$set": {"location": l, "updated_at": t}},
    upsert=True)]: without a match, the document made of the filter and
    the update is inserted. *)
Definition update_one (p : str) (l : coords) (t : datetime) (c : collection)
  : collection :=
  let t' := bson_datetime t in
  match set_first p l t' c with
  | Some c' => c'
  | None => c ++ [{| phone := p; location := l; updated_at := t' |}]
  end.

(** How many documents carry the phone [p]. *)
Definition count_documents (p : str) (c : collection) : nat :=
  List.length (filter (has_phone p) c).

(** The unique index on [phone] that [create_index] declares. *)
Definition unique_index (c : collection) : Prop := NoDup (map phone c).

End Mongo.

(* ================================================================== *)
(** * Effects of a view function *)
(* ================================================================== *)

(** A view function as a program: it returns, lets an exception escape,
    reads the clock, calls the collection or writes to the log. A store
    call hands its continuation either the answer or the [PyMongoError]
    the driver raised, so that [try]/[except] is a [match]. *)
Inductive prog (A : Type) :=
| Return (a : A)
| Throw (e : exn)
| UtcNow (k : datetime -> prog A)
| UpdateOne (p : str) (l : coords) (t : datetime) (k : result unit -> prog A)
| FindOne (p : str) (k : result (option document) -> prog A)
| LogException (msg : str) (k : prog A).
Arguments Return {A} a.
Arguments Throw {A} e.
Arguments UtcNow {A} k.
Arguments UpdateOne {A} p l t k.
Arguments FindOne {A} p k.
Arguments LogException {A} msg k.

(** Evaluating an expression inside a view: its exception escapes. *)
Definition eval {A B} (r : result A) (k : A -> prog B) : prog B :=
  match r with
  | Ok a => k a
  | Raise e => Throw e
  end.

Notation "x <- r ;; k" := (eval r (fun x => k))
  (at level 61, r at next level, right associativity).

(* ================================================================== *)
(** * Flask: requests and responses *)
(* ================================================================== *)

(** What the view of [POST /api/location] reads of the request. *)
Record request := {
  is_json : bool;           (* the mimetype announces JSON *)
  get_json : result pyval   (* the parsed body; [BadRequest] if it does not parse *)
}.

Inductive content :=
| Json (v : pyval)             (* the body [jsonify] builds *)
| DefaultPage.                 (* the page of an [HTTPException] nobody handles *)

Record response := { body : content; status : Z }.

(** [jsonify(d), code] *)
Definition jsonify (d : list (str * pyval)) (code : Z) : response :=
  {| body := Json (PDict d); status := code |}.

(** [x.get(key)]: a [dict] answers, with [None] for a missing key; the
    other JSON values have no such method. *)
Definition get (x : pyval) (key : str) : result pyval :=
  match x with
  | PDict d =>
      match find (fun kv => PyStr.eqb (fst kv) key) d with
      | Some kv => Ok (snd kv)
      | None => Ok PNone
      end
  | _ => Raise AttributeError
  end.

Definition is_None (x : pyval) : bool :=
  match x with PNone => true | _ => false end.

(** [x.strip()] *)
Definition py_strip (x : pyval) : result str :=
  match x with
  | PStr s => Ok (strip s)
  | _ => Raise AttributeError
  end.

(** [str(e)] for a [PyMongoError]. *)
Definition str_of_exn (e : exn) : str :=
  match e with
  | PyMongoError msg => msg
  | _ => []
  end.

(** [doc["phone"]], where a variable of the view is called [phone] too. *)
Definition phone_of (d : document) : str := phone d.

Definition json_location (l : coords) : pyval :=
  PDict [(u "latitude", PFloat (latitude l)); (u "longitude", PFloat (longitude l))].

(* ================================================================== *)
(** * server.py: the views *)
(* ================================================================== *)

(** [POST /api/location] *)
Definition update_location (req : request) : prog response :=
  if negb (is_json req) then
    Return (jsonify [(u "error", PStr (u "Request body must be JSON"))] 400)
  else
    data <- get_json req ;;
    phone <- get data (u "phone") ;;
    latitude <- get data (u "latitude") ;;
    longitude <- get data (u "longitude") ;;
    if is_None phone || is_None latitude || is_None longitude then
      Return (jsonify
        [(u "error", PStr (u "Missing required fields: phone, latitude, longitude"))]
        400)
    else if negb (validate_phone phone) then
      Return (jsonify
        [(u "error", PStr (u "Invalid phone format. Use digits with optional leading '+', 7-15 digits."))]
        400)
    else
      valid <- validate_lat_lon latitude longitude ;;
      if negb valid then
        Return (jsonify
          [(u "error", PStr (u "Invalid latitude/longitude range or format."))]
          400)
      else
        UtcNow (fun now =>
          doc_phone <- py_strip phone ;;
          doc_latitude <- PyFloat.float latitude ;;
          doc_longitude <- PyFloat.float longitude ;;
          let doc_location :=
            {| latitude := doc_latitude; longitude := doc_longitude |} in
          UpdateOne doc_phone doc_location now (fun result =>
            match result with
            | Raise e =>
                LogException (u "Database error while updating location")
                  (Return (jsonify
                     [(u "error", PStr (u "Database error"));
                      (u "details", PStr (str_of_exn e))] 500))
            | Ok _ =>
                Return (jsonify
                  [(u "message", PStr (u "Location stored"));
                   (u "phone", PStr doc_phone);
                   (u "location", json_location doc_location);
                   (u "updated_at", PStr (DateTime.isoformat now ++ u "Z"))]
                  200)
            end)).

(** [GET /api/location/<phone>] *)
Definition get_latest_location (phone : str) : prog response :=
  if negb (validate_phone (PStr phone)) then
    Return (jsonify [(u "error", PStr (u "Invalid phone format."))] 400)
  else
    FindOne phone (fun result =>
      match result with
      | Raise e =>
          LogException (u "Database error while fetching location")
            (Return (jsonify
               [(u "error", PStr (u "Database error"));
                (u "details", PStr (str_of_exn e))] 500))
      | Ok None =>
          Return (jsonify
            [(u "error", PStr (u "No location found for this phone number"))]
            404)
      | Ok (Some doc) =>
          Return (jsonify
            [(u "phone", PStr (phone_of doc));
             (u "location", json_location (location doc));
             (u "updated_at", PStr (DateTime.isoformat (updated_at doc) ++ u "Z"))]
            200)
      end).

(** The three [errorhandler]s. *)
Definition not_found : response :=
  jsonify [(u "error", PStr (u "Not found"))] 404.
Definition method_not_allowed : response :=
  jsonify [(u "error", PStr (u "Method not allowed"))] 405.
Definition internal_error : response :=
  jsonify [(u "error", PStr (u "Internal server error"))] 500.

(* ================================================================== *)
(** * Running the service *)
(* ================================================================== *)

(** What the service does not decide: the reading of the clock at each
    call of [utcnow], and whether each call of the collection fails (and
    with what message). Both are numbered from the start of the run. *)
Record env := {
  clock : nat -> datetime;
  fault : nat -> option str
}.

(** A call of the collection as the driver saw it, with the message of
    its failure if it failed. *)
Inductive store_call :=
| CallUpdate (p : str) (l : coords) (t : datetime) (failure : option str)
| CallFind (p : str) (failure : option str).

Record world := {
  coll : Mongo.collection;       (* the documents *)
  ticks : nat;                   (* clock readings so far *)
  calls : list store_call;       (* calls of the collection so far, oldest first *)
  logged : list str              (* what [app.logger] received *)
}.

Definition init : world :=
  {| coll := []; ticks := 0; calls := []; logged := [] |}.

(** A failed call leaves the collection as it was. *)
Fixpoint exec {A} (e : env) (p : prog A) (w : world) : result A * world :=
  match p with
  | Return a => (Ok a, w)
  | Throw x => (Raise x, w)
  | UtcNow k =>
      exec e (k (clock e (ticks w)))
        {| coll := coll w; ticks := S (ticks w);
           calls := calls w; logged := logged w |}
  | UpdateOne p l t k =>
      match fault e (List.length (calls w)) with
      | Some msg =>
          exec e (k (Raise (PyMongoError msg)))
            {| coll := coll w; ticks := ticks w;
               calls := calls w ++ [CallUpdate p l t (Some msg)];
               logged := logged w |}
      | None =>
          exec e (k (Ok tt))
            {| coll := Mongo.update_one p l t (coll w); ticks := ticks w;
               calls := calls w ++ [CallUpdate p l t None];
               logged := logged w |}
      end
  | FindOne p k =>
      match fault e (List.length (calls w)) with
      | Some msg =>
          exec e (k (Raise (PyMongoError msg)))
            {| coll := coll w; ticks := ticks w;
               calls := calls w ++ [CallFind p (Some msg)];
               logged := logged w |}
      | None =>
          exec e (k (Ok (Mongo.find_one p (coll w))))
            {| coll := coll w; ticks := ticks w;
               calls := calls w ++ [CallFind p None];
               logged := logged w |}
      end
  | LogException msg k =>
      exec e k
        {| coll := coll w; ticks := ticks w;
           calls := calls w; logged := logged w ++ [msg] |}
  end.

(** A request that the routes of the application accept. *)
Inductive http_request :=
| POST_location (req : request)
| GET_location (phone : str).

Definition view (r : http_request) : prog response :=
  match r with
  | POST_location req => update_location req
  | GET_location phone => get_latest_location phone
  end.

(** An exception that leaves a view: an [HTTPException] is its own
    response, anything else goes to the handler registered for 500. *)
Definition handle_exception (x : exn) : response :=
  match x with
  | BadRequest => {| body := DefaultPage; status := 400 |}
  | _ => internal_error
  end.

(** One request, from the route to the response. *)
Definition handle (e : env) (r : http_request) (w : world) : response * world :=
  let '(res, w') := exec e (view r) w in
  (match res with Ok resp => resp | Raise x => handle_exception x end, w').

(** Requests served one after the other. *)
Fixpoint serve (e : env) (rs : list http_request) (w : world)
  : list response * world :=
  match rs with
  | [] => ([], w)
  | r :: rs' =>
      let '(resp, w1) := handle e r w in
      let '(resps, w2) := serve e rs' w1 in
      (resp :: resps, w2)
  end.

(** The updates of the phone [p] that the collection accepted, oldest
    first, among the calls [cs]. *)
Definition upserts (p : str) (cs : list store_call) : list (coords * datetime) :=
  flat_map (fun c =>
    match c with
    | CallUpdate q l t None => if PyStr.eqb q p then [(l, t)] else []
    | _ => []
    end) cs.

(** A JSON object body with the three fields. *)
Definition body_of (phone latitude longitude : pyval) : pyval :=
  PDict [(u "phone", phone); (u "latitude", latitude); (u "longitude", longitude)].

Definition post (phone latitude longitude : pyval) : http_request :=
  POST_location {| is_json := true; get_json := Ok (body_of phone latitude longitude) |}.

(** An environment without failures whose clock advances by a second
    per reading (for runs shorter than a minute). *)
Definition calm : env :=
  {| clock := fun n => {| year := 2024; month := 5; day := 17; hour := 12;
                          minute := 0; second := Z.of_nat n; microsecond := 1500 |};
     fault := fun _ => None |}.

(* ================================================================== *)
(** * What the specification says of a phone number *)
(* ================================================================== *)

(** Between 7 and 15 characters, all of them digits in the sense of
    [digit]. *)
Definition digits_7_15 (digit : N -> bool) (t : str) : bool :=
  forallb digit t && (7 <=? List.length t)%nat && (List.length t <=? 15)%nat.

(** An optional leading [+] followed by 7 to 15 digits. *)
Definition phone_shape (digit : N -> bool) (t : str) : bool :=
  digits_7_15 digit t
  || match t with
     | c :: r => (c =? 0x2B)%N && digits_7_15 digit r
     | [] => false
     end.

(** The specification's [validate_phone]: a string that, trimmed, is an
    optional [+] and 7 to 15 ASCII digits. *)
Definition spec_validate_phone (raw : pyval) : bool :=
  match raw with
  | PStr s => phone_shape is_ascii_digit (strip s)
  | _ => false
  end.

(* ================================================================== *)
(** * What the specification says of coordinates *)
(* ================================================================== *)

(** [lo <= a <= hi] in IEEE-754 arithmetic: a NaN is in no interval. *)
Definition in_interval (lo hi a : spec_float) : bool :=
  PyFloat.leb lo a && PyFloat.leb a hi.

Definition lat_in_range (a : spec_float) : bool :=
  in_interval (PyFloat.lit (-900) 1) (PyFloat.lit 900 1) a.

Definition lon_in_range (b : spec_float) : bool :=
  in_interval (PyFloat.lit (-1800) 1) (PyFloat.lit 1800 1) b.

(** Neither a NaN nor an infinity. *)
Definition is_finite (a : spec_float) : bool :=
  negb (PyFloat.is_nan a || PyFloat.is_inf a).

(** The number a float stands for, when it stands for one. *)
Definition to_Q (f : spec_float) : option Q :=
  match f with
  | S754_zero _ => Some 0%Q
  | S754_finite s m e =>
      let n := cond_Zopp s (Zpos m) in
      Some match e with
           | Zneg k => (n # (2 ^ k)%positive)%Q
           | _ => inject_Z (n * 2 ^ e)
           end
  | _ => None
  end.

(** A float that stands for a number of the interval [[lo, hi]]. *)
Definition within (lo hi : Z) (f : spec_float) : Prop :=
  match to_Q f with
  | Some q => (inject_Z lo <= q /\ q <= inject_Z hi)%Q
  | None => False
  end.

(** [m * 2^e <= C], without fractions. *)
Definition magnitude_le (m : positive) (e : Z) (C : Z) : Prop :=
  match e with
  | Zneg k => (Zpos m <= C * 2 ^ Zpos k)%Z
  | _ => (Zpos m * 2 ^ e <= C)%Z
  end.

(* ================================================================== *)
(** * Histories *)
(* ================================================================== *)

(** The collection that the calls [cs] leave of the collection [c]:
    each accepted update applied in turn. *)
Definition replay (cs : list store_call) (c : Mongo.collection) : Mongo.collection :=
  fold_left (fun c call =>
    match call with
    | CallUpdate p l t None => Mongo.update_one p l t c
    | _ => c
    end) cs c.

(** The timestamps that the updates among [cs] carried, oldest first. *)
Definition update_times (cs : list store_call) : list datetime :=
  flat_map (fun c =>
    match c with
    | CallUpdate _ _ t _ => [t]
    | CallFind _ _ => []
    end) cs.

(** The updates among [cs] carry readings of the clock [e] numbered from
    [lo] inclusive to [hi] exclusive, each reading later than the one
    before. *)
Definition stamped (e : env) (lo hi : nat) (cs : list store_call) : Prop :=
  exists ns, update_times cs = map (clock e) ns
             /\ StronglySorted lt ns
             /\ Forall (fun n => lo <= n < hi) ns.




(** An environment in which the second call of the collection, and no
    other, fails: the duplicate key error of an insert that lost a
    race. *)
Definition racing : env :=
  {| clock := clock calm;
     fault := fun n => match n with
                       | 1 => Some (u "E11000 duplicate key error")
                       | _ => None
                       end |}.

(** An environment in which every call of the collection fails. *)
Definition stormy : env :=
  {| clock := clock calm;
     fault := fun _ => Some (u "connection refused") |}.

(** The world after an update call with reading [now] of the clock. *)
Definition after_update (w : world) (p : str) (l : coords) (now : datetime)
  (failure : option str) : world :=
  {| coll := match failure with
             | None => Mongo.update_one p l now (coll w)
             | Some _ => coll w
             end;
     ticks := S (ticks w);
     calls := calls w ++ [CallUpdate p l now failure];
     logged := match failure with
               | None => logged w
               | Some _ => logged w ++ [u "Database error while updating location"]
               end |}.

(** The world after a lookup. *)
Definition after_find (w : world) (p : str) (failure : option str) : world :=
  {| coll := coll w;
     ticks := ticks w;
     calls := calls w ++ [CallFind p failure];
     logged := match failure with
               | None => logged w
               | Some _ => logged w ++ [u "Database error while fetching location"]
               end |}.

(** The two bodies of section 6 that carry data. *)
Definition stored_body (p : str) (l : coords) (now : datetime) : response :=
  jsonify [(u "message", PStr (u "Location stored"));
           (u "phone", PStr p);
           (u "location", json_location l);
           (u "updated_at", PStr (DateTime.isoformat now ++ u "Z"))] 200.

Definition found_body (d : document) : response :=
  jsonify [(u "phone", PStr (phone d));
           (u "location", json_location (location d));
           (u "updated_at", PStr (DateTime.isoformat (updated_at d) ++ u "Z"))] 200.

Definition database_error (msg : str) : response :=
  jsonify [(u "error", PStr (u "Database error")); (u "details", PStr msg)] 500.

Definition missing_fields : response :=
  jsonify [(u "error", PStr (u "Missing required fields: phone, latitude, longitude"))] 400.

Definition invalid_phone : response :=
  jsonify [(u "error", PStr (u "Invalid phone format. Use digits with optional leading '+', 7-15 digits."))] 400.

Definition invalid_coordinates : response :=
  jsonify [(u "error", PStr (u "Invalid latitude/longitude range or format."))] 400.

Definition body_must_be_json : response :=
  jsonify [(u "error", PStr (u "Request body must be JSON"))] 400.

Definition no_location_found : response :=
  jsonify [(u "error", PStr (u "No location found for this phone number"))] 404.

(** A request of [POST /api/location] that passes every check: a JSON
    object whose [phone] is the valid string [s] and whose coordinates
    convert to [a] and [b] within range. *)
Definition valid_post (req : request) (s : str) (a b : spec_float) : Prop :=
  exists data lat lon,
    is_json req = true /\ get_json req = Ok data
    /\ get data (u "phone") = Ok (PStr s)
    /\ get data (u "latitude") = Ok lat
    /\ get data (u "longitude") = Ok lon
    /\ validate_phone (PStr s) = true
    /\ PyFloat.float lat = Ok a /\ PyFloat.float lon = Ok b
    /\ lat_in_range a = true /\ lon_in_range b = true.

(** [n] steps of a matcher, as a relation between cursors. *)
Fixpoint steps (step : Re.cursor -> list Re.cursor) (n : nat)
  (c c' : Re.cursor) : Prop :=
  match n with
  | O => c' = c
  | S n' => exists c1, In c1 (step c) /\ steps step n' c1 c'
  end.

(* ================================================================== *)
(** * What the collection holds *)
(* ================================================================== *)

(** A string made of white space only. *)
Definition all_space (s : str) : bool := forallb isspace s.

(** A phone as the service writes it: accepted, and already trimmed. *)
Definition valid_key (p : str) : Prop :=
  validate_phone (PStr p) = true /\ strip p = p.

(** A document as the service writes it: its phone is a valid key and
    its coordinates pass the range tests. *)
Definition well_formed (d : document) : Prop :=
  valid_key (phone d)
  /\ lat_in_range (latitude (location d)) = true
  /\ lon_in_range (longitude (location d)) = true.

(** A call as the views make it: an update writes a valid key with
    coordinates in range, a lookup asks for an accepted phone. *)
Definition good_call (c : store_call) : Prop :=
  match c with
  | CallUpdate p l _ _ =>
      valid_key p /\ lat_in_range (latitude l) = true
      /\ lon_in_range (longitude l) = true
  | CallFind p _ => validate_phone (PStr p) = true
  end.

Definition is_update (c : store_call) : bool :=
  match c with CallUpdate _ _ _ _ => true | CallFind _ _ => false end.

(** A response whose body is a JSON object that has the key ["error"]
    with a message. *)
Definition has_error (r : response) : Prop :=
  exists msg d, body r = Json (PDict d) /\ In (u "error", PStr msg) d.

(* ================================================================== *)
(** * Requests served at the same time *)
(* ================================================================== *)

(** One effect of a view, carried out at once against the world: a
    reading of the clock, a call of the collection (the store carries
    out each call as a whole, one after the other), a line of log. A
    view that has ended stays as it is. [exec] is these steps taken to
    the end. *)
Definition step {A} (e : env) (p : prog A) (w : world) : prog A * world :=
  match p with
  | Return a => (Return a, w)
  | Throw x => (Throw x, w)
  | UtcNow k =>
      (k (clock e (ticks w)),
       {| coll := coll w; ticks := S (ticks w);
          calls := calls w; logged := logged w |})
  | UpdateOne p l t k =>
      match fault e (List.length (calls w)) with
      | Some msg =>
          (k (Raise (PyMongoError msg)),
           {| coll := coll w; ticks := ticks w;
              calls := calls w ++ [CallUpdate p l t (Some msg)];
              logged := logged w |})
      | None =>
          (k (Ok tt),
           {| coll := Mongo.update_one p l t (coll w); ticks := ticks w;
              calls := calls w ++ [CallUpdate p l t None];
              logged := logged w |})
      end
  | FindOne p k =>
      match fault e (List.length (calls w)) with
      | Some msg =>
          (k (Raise (PyMongoError msg)),
           {| coll := coll w; ticks := ticks w;
              calls := calls w ++ [CallFind p (Some msg)];
              logged := logged w |})
      | None =>
          (k (Ok (Mongo.find_one p (coll w))),
           {| coll := coll w; ticks := ticks w;
              calls := calls w ++ [CallFind p None];
              logged := logged w |})
      end
  | LogException msg k =>
      (k,
       {| coll := coll w; ticks := ticks w;
          calls := calls w; logged := logged w ++ [msg] |})
  end.

(** A view that has answered, or that an exception has left. *)
Definition finished {A} (p : prog A) : bool :=
  match p with
  | Return _ | Throw _ => true
  | _ => false
  end.

(** The requests in progress, each at the point its view has reached. *)
Definition pool := list (prog response).

(** The request numbered [i] takes its next step. *)
Definition step_thread (e : env) (i : nat) (ts : pool) (w : world)
  : pool * world :=
  match nth_error ts i with
  | Some th =>
      let '(th', w') := step e th w in
      (firstn i ts ++ th' :: skipn (S i) ts, w')
  | None => (ts, w)
  end.

(** The requests run interleaved: the schedule names, step after step,
    the request that moves. *)
Fixpoint interleave (e : env) (sched : list nat) (ts : pool) (w : world)
  : pool * world :=
  match sched with
  | [] => (ts, w)
  | i :: sched' =>
      let '(ts', w') := step_thread e i ts w in
      interleave e sched' ts' w'
  end.

(** The view is about to update a phone that has no document, and the
    update is going to fail: a failure that is not a duplicate key. *)
Definition other_failure (e : env) (th : prog response) (w : world) : bool :=
  match th with
  | UpdateOne p _ _ _ =>
      match fault e (List.length (calls w)) with
      | Some _ =>
          match Mongo.find_one p (coll w) with
          | Some _ => false
          | None => true
          end
      | None => false
      end
  | _ => false
  end.

(** Along the schedule an update fails only when its phone already has
    a document: the failures are the duplicate key errors of inserts
    that lost a race, no others. *)
Fixpoint duplicate_key_failures_only (e : env) (sched : list nat)
  (ts : pool) (w : world) : bool :=
  match sched with
  | [] => true
  | i :: sched' =>
      negb (match nth_error ts i with
            | Some th => other_failure e th w
            | None => false
            end)
      && let '(ts', w') := step_thread e i ts w in
         duplicate_key_failures_only e sched' ts' w'
  end.

(** What [update_location] does with the outcome of its update. *)
Definition after_store (p : str) (l : coords) (now : datetime)
  (outcome : result unit) : prog response :=
  match outcome with
  | Raise x =>
      LogException (u "Database error while updating location")
        (Return (jsonify
           [(u "error", PStr (u "Database error"));
            (u "details", PStr (str_of_exn x))] 500))
  | Ok _ =>
      Return (jsonify
        [(u "message", PStr (u "Location stored"));
         (u "phone", PStr p);
         (u "location", json_location l);
         (u "updated_at", PStr (DateTime.isoformat now ++ u "Z"))]
        200)
  end.

(** What is left of [update_location] for a request that passed the
    checks. *)
Definition post_thread (p : str) (l : coords) : prog response :=
  UtcNow (fun now => UpdateOne p l now (after_store p l now)).

(** The points such a request goes through. *)
Inductive thread_state (p : str) (l : coords) : prog response -> Prop :=
| at_start : thread_state p l (post_thread p l)
| at_update (t : datetime) :
    thread_state p l (UpdateOne p l t (after_store p l t))
| at_log (msg : str) :
    thread_state p l
      (LogException (u "Database error while updating location")
         (Return (database_error msg)))
| at_failure (msg : str) : thread_state p l (Return (database_error msg))
| at_success (t : datetime) : thread_state p l (Return (stored_body p l t)).

(** The view has made its call of the collection. *)
Definition called (th : prog response) : bool :=
  match th with
  | Return _ | LogException _ _ => true
  | _ => false
  end.

Definition calls_made (ts : pool) : nat := List.length (filter called ts).

(** The steps a view may still have to take. *)
Definition remaining {A} (th : prog A) : nat :=
  match th with
  | Return _ | Throw _ => 0
  | LogException _ _ => 1
  | UpdateOne _ _ _ _ | FindOne _ _ => 2
  | UtcNow _ => 3
  end.

(** A schedule that lets each of [n] requests move three times. *)
Definition fair (n : nat) (sched : list nat) : bool :=
  forallb (fun i => 3 <=? count_occ Nat.eq_dec sched i) (seq 0 n).

(** An update of the phone [p]. *)
Definition update_of (p : str) (c : store_call) : Prop :=
  exists l t f, c = CallUpdate p l t f.

(** The two answers of a request that passed the checks. *)
Definition stored_or_failed (p : str) (l : coords) (th : prog response) : Prop :=
  (exists t, th = Return (stored_body p l t))
  \/ (exists msg, th = Return (database_error msg)).

(** A request answered 200. *)
Definition answered_200 (th : prog response) : Prop :=
  exists resp, th = Return resp /\ status resp = 200%Z.

(** What holds of the requests in progress that write the coordinates
    [ls] for [p], from the world [w0] they started in: the unique
    index, the point each has reached, one update of [p] per call made
    and no other call, the other phones as they were, a document for
    [p] once a request has its 200, and in that document the
    coordinates of one of the requests. *)
Definition racing_inv (p : str) (ls : list coords) (w0 : world)
  (ts : pool) (w : world) : Prop :=
  Mongo.unique_index (coll w)
  /\ Forall2 (thread_state p) ls ts
  /\ (exists cs, calls w = calls w0 ++ cs
                 /\ Forall (update_of p) cs
                 /\ List.length cs = calls_made ts)
  /\ (forall q, q <> p ->
        Mongo.find_one q (coll w) = Mongo.find_one q (coll w0))
  /\ (Exists answered_200 ts -> In p (map phone (coll w)))
  /\ (forall d, Mongo.find_one p (coll w) = Some d -> In (location d) ls).

(* ================================================================== *)
(** * Strings: trimming *)
(* ================================================================== *)

Section Strip.

Lemma lstrip_head (s : str) :
  match lstrip s with
  | c :: _ => isspace c = false
  | [] => True
  end.
Proof.
  induction s as [|c t IH]; simpl; [exact I|].
  destruct (isspace c) eqn:E; [exact IH | exact E].
Qed.

Lemma lstrip_fixed (c : N) (t : str) :
  isspace c = false -> lstrip (c :: t) = c :: t.
Proof. intros H; simpl; now rewrite H. Qed.

(** Trimming on the left does not look past a character that stays. *)
Lemma lstrip_app (x y : str) :
  match y with c :: _ => isspace c = false | [] => False end ->
  lstrip (x ++ y) = lstrip x ++ y.
Proof.
  intros Hy; induction x as [|a x IH]; simpl.
  - destruct y as [|c y']; [contradiction|]. now apply lstrip_fixed.
  - destruct (isspace a); [exact IH | reflexivity].
Qed.

Lemma rstrip_last (s : str) (c : N) (t : str) :
  rstrip s = t ++ [c] -> isspace c = false.
Proof.
  unfold rstrip; intros H.
  pose proof (lstrip_head (rev s)) as Hh.
  destruct (lstrip (rev s)) as [|a r]; simpl in H.
  - now destruct t.
  - apply app_inj_tail in H. destruct H as [_ ->]. exact Hh.
Qed.

(** A trimmed string does not end with a white space character. *)
Lemma strip_last (s : str) (c : N) (t : str) :
  strip s = t ++ [c] -> isspace c = false.
Proof. unfold strip; apply rstrip_last. Qed.

Lemma rstrip_keeps_head (c : N) (t : str) :
  isspace c = false -> exists t', rstrip (c :: t) = c :: t'.
Proof.
  intros Hc; unfold rstrip; simpl.
  rewrite lstrip_app by exact Hc.
  rewrite rev_app_distr; simpl. eauto.
Qed.

(** A trimmed string does not start with a white space character. *)
Lemma strip_head (s : str) :
  match strip s with
  | c :: _ => isspace c = false
  | [] => True
  end.
Proof.
  unfold strip.
  pose proof (lstrip_head s) as Hh.
  destruct (lstrip s) as [|c t]; [exact I|].
  destruct (rstrip_keeps_head c t Hh) as [t' ->]. exact Hh.
Qed.

Lemma rstrip_fixed (s : str) :
  (forall t c, s = t ++ [c] -> isspace c = false) -> rstrip s = s.
Proof.
  intros H; unfold rstrip.
  destruct (rev s) as [|c r] eqn:E.
  - simpl. apply (f_equal (@rev N)) in E. now rewrite rev_involutive in E.
  - assert (Hs : s = rev r ++ [c]).
    { apply (f_equal (@rev N)) in E. now rewrite rev_involutive in E. }
    rewrite (lstrip_fixed c r (H _ _ Hs)). now rewrite <- E, rev_involutive.
Qed.

(** Trimming twice is trimming once. *)
Lemma strip_idempotent (s : str) : strip (strip s) = strip s.
Proof.
  unfold strip at 1.
  pose proof (strip_head s) as Hh.
  assert (Hl : lstrip (strip s) = strip s).
  { destruct (strip s) as [|c t]; [reflexivity|]. now apply lstrip_fixed. }
  rewrite Hl. apply rstrip_fixed. intros t c. apply strip_last.
Qed.

End Strip.

(* ================================================================== *)
(** * The phone pattern *)
(* ================================================================== *)

Section PhonePattern.

Import Re.

Lemma cursor_eq (c c' : cursor) :
  pos c' = pos c -> rest c' = rest c -> c' = c.
Proof. destruct c, c'; simpl; intros -> ->; reflexivity. Qed.

(** Bounded repetition takes any number of steps within its bounds. *)
Lemma rep_from_In (step : cursor -> list cursor) (hi lo : nat) (c c' : cursor) :
  In c' (rep_from step lo hi c) <->
  exists n, lo <= n <= hi /\ steps step n c c'.
Proof.
  revert lo c; induction hi as [|hi IH]; intros lo c; simpl.
  - destruct (Nat.eqb_spec lo 0) as [->|Hlo]; simpl; split.
    + intros [<-|[]]. exists 0; simpl; auto.
    + intros (n & Hn & Hs). assert (n = 0) by lia; subst; simpl in Hs; auto.
    + intros [].
    + intros (n & Hn & _); lia.
  - rewrite in_app_iff, in_flat_map; split.
    + intros [(c1 & H1 & H2)|H].
      * apply IH in H2. destruct H2 as (n & Hn & Hs).
        exists (S n); split; [lia|]. simpl; eauto.
      * destruct (Nat.eqb_spec lo 0) as [->|Hlo]; [|destruct H].
        destruct H as [<-|[]]. exists 0; split; [lia|reflexivity].
    + intros (n & Hn & Hs). destruct n as [|n]; simpl in Hs.
      * right. subst c'. assert (lo = 0) as -> by lia. simpl; auto.
      * left. destruct Hs as (c1 & H1 & H2). exists c1; split; [exact H1|].
        apply IH. exists n; split; [lia|exact H2].
Qed.

Lemma run_Digit_In (c c1 : cursor) :
  In c1 (run Digit c) <->
  exists y, rest c = y :: rest c1 /\ isdecimal y = true /\ pos c1 = S (pos c).
Proof.
  simpl. destruct (rest c) as [|y t] eqn:E.
  - split; [intros []|intros (y & H & _); discriminate].
  - destruct (isdecimal y) eqn:D; simpl; split.
    + intros [<-|[]]. exists y; simpl; auto.
    + intros (y' & H & _ & Hp). injection H as <- Ht. left.
      symmetry; apply cursor_eq; simpl; auto.
    + intros [].
    + intros (y' & H & D' & _). injection H as <- _. congruence.
Qed.

(** [n] steps of [\d] read [n] decimal digits. *)
Lemma steps_Digit (n : nat) (c c' : cursor) :
  steps (run Digit) n c c' <->
  exists ds, List.length ds = n /\ forallb isdecimal ds = true
             /\ rest c = ds ++ rest c' /\ pos c' = n + pos c.
Proof.
  revert c; induction n as [|n IH]; intros c; simpl.
  - split.
    + intros ->. exists []; auto.
    + intros (ds & Hl & _ & Hr & Hp).
      destruct ds; [|discriminate]. apply cursor_eq; auto.
  - split.
    + intros (c1 & H1 & H2). apply run_Digit_In in H1.
      destruct H1 as (y & Hr & Hd & Hp). apply IH in H2.
      destruct H2 as (ds & Hl & Hf & Hr' & Hp').
      exists (y :: ds); simpl. rewrite Hd, Hf, Hl, Hr, Hr'.
      repeat split; auto; lia.
    + intros (ds & Hl & Hf & Hr & Hp).
      destruct ds as [|y ds]; [discriminate|]. simpl in *.
      apply andb_prop in Hf. destruct Hf as [Hd Hf].
      exists (advance c (ds ++ rest c')); split.
      * apply run_Digit_In. exists y; simpl; auto.
      * apply IH. exists ds; simpl. repeat split; auto; lia.
Qed.

Lemma truthy_hd_error {A : Type} (l : list A) :
  truthy (hd_error l) = true <-> exists x, In x l.
Proof.
  destruct l as [|a l]; simpl; split; try discriminate; eauto.
  intros [x []].
Qed.

(** What [PHONE_REGEX.match] accepts: an optional [+], 7 to 15 decimal
    digits, and nothing more but an optional final newline. *)
Lemma PHONE_REGEX_match (t : str) :
  truthy (match_ PHONE_REGEX t) = true <->
  exists sign ds tail,
    t = sign ++ ds ++ tail
    /\ (sign = [] \/ sign = [0x2B%N])
    /\ (tail = [] \/ tail = [0x0A%N])
    /\ forallb isdecimal ds = true
    /\ 7 <= List.length ds <= 15.
Proof.
  unfold match_. rewrite truthy_hd_error. unfold PHONE_REGEX.
  change (run (Cat Bol ?r) (start t)) with (run r (start t) ++ []).
  split.
  - intros (x & Hx). rewrite app_nil_r in Hx.
    change (In x (flat_map (run (Cat (Rep 7 15 Digit) Eol))
                    (run (Chr 0x2B%N) (start t) ++ [start t]))) in Hx.
    apply in_flat_map in Hx. destruct Hx as (c0 & H0 & Hx).
    change (In x (flat_map (run Eol) (rep_from (run Digit) 7 15 c0))) in Hx.
    apply in_flat_map in Hx. destruct Hx as (c1 & H1 & Hx).
    apply rep_from_In in H1. destruct H1 as (n & Hn & Hs).
    apply steps_Digit in Hs. destruct Hs as (ds & Hl & Hf & Hr & _).
    assert (Htail : rest c1 = [] \/ rest c1 = [0x0A%N]).
    { simpl in Hx. destruct (rest c1) as [|a [|b r]]; auto.
      - destruct (N.eqb_spec a 0x0A); [subst; auto|destruct Hx].
      - destruct Hx. }
    apply in_app_iff in H0. destruct H0 as [H0|[<-|[]]].
    + cbn [run start rest] in H0. destruct t as [|y t']; [destruct H0|].
      destruct (N.eqb_spec 0x2B y) as [<-|]; [|destruct H0].
      destruct H0 as [<-|[]]. simpl in Hr.
      exists [0x2B%N], ds, (rest c1); simpl. rewrite Hr, Hl. auto.
    + simpl in Hr. exists [], ds, (rest c1); simpl. rewrite Hr, Hl. auto.
  - intros (sign & ds & tail & -> & Hsign & Htail & Hf & Hl).
    rewrite app_nil_r.
    set (c0 := {| pos := List.length sign; rest := ds ++ tail |}).
    set (c1 := {| pos := List.length ds + List.length sign; rest := tail |}).
    exists c1.
    change (In c1 (flat_map (run (Cat (Rep 7 15 Digit) Eol))
                     (run (Chr 0x2B%N) (start (sign ++ ds ++ tail))
                      ++ [start (sign ++ ds ++ tail)]))).
    apply in_flat_map. exists c0; split.
    + apply in_app_iff. destruct Hsign as [->| ->]; simpl.
      * right; left; reflexivity.
      * left; left; reflexivity.
    + change (In c1 (flat_map (run Eol) (rep_from (run Digit) 7 15 c0))).
      apply in_flat_map. exists c1; split.
      * apply rep_from_In. exists (List.length ds); split; [exact Hl|].
        apply steps_Digit. exists ds; simpl; auto.
      * simpl. destruct Htail as [->| ->]; simpl; auto.
Qed.

Lemma digits_7_15_iff (digit : N -> bool) (t : str) :
  digits_7_15 digit t = true <->
  forallb digit t = true /\ 7 <= List.length t <= 15.
Proof.
  unfold digits_7_15. rewrite !andb_true_iff, Nat.leb_le, Nat.leb_le. tauto.
Qed.

Lemma phone_shape_iff (digit : N -> bool) (t : str) :
  phone_shape digit t = true <->
  exists sign ds,
    t = sign ++ ds /\ (sign = [] \/ sign = [0x2B%N])
    /\ forallb digit ds = true /\ 7 <= List.length ds <= 15.
Proof.
  unfold phone_shape. rewrite orb_true_iff, digits_7_15_iff. split.
  - intros [H|H].
    + exists [], t; simpl; tauto.
    + destruct t as [|c r]; [discriminate|].
      apply andb_prop in H. destruct H as [Hc Hr].
      apply N.eqb_eq in Hc. subst c. apply digits_7_15_iff in Hr.
      exists [0x2B%N], r; simpl; tauto.
  - intros (sign & ds & -> & [->| ->] & Hf & Hl); simpl.
    + left; tauto.
    + right. rewrite digits_7_15_iff. tauto.
Qed.

(** On a trimmed string the pattern accepts exactly the phone shape
    over decimal digits: the newline that [$] tolerates cannot be
    there. *)
Lemma PHONE_REGEX_strip (s : str) :
  truthy (match_ PHONE_REGEX (strip s)) = phone_shape isdecimal (strip s).
Proof.
  apply eq_true_iff_eq.
  rewrite PHONE_REGEX_match, phone_shape_iff. split.
  - intros (sign & ds & tail & Ht & Hsign & [->| ->] & Hf & Hl).
    + exists sign, ds. rewrite app_nil_r in Ht. auto.
    + rewrite app_assoc in Ht. apply strip_last in Ht. discriminate.
  - intros (sign & ds & Ht & Hsign & Hf & Hl).
    exists sign, ds, []. rewrite app_nil_r. auto.
Qed.

End PhonePattern.

(** C3, as the code has it: [validate_phone] accepts exactly the strings
    that, once leading and trailing white space is trimmed, are an
    optional [+] followed by 7 to 15 decimal digits, where a decimal digit
    is any character of Unicode category Nd (the ASCII digits among
    them); every other value, and every value that is not a string, is
    refused. *)
Theorem validate_phone_decimal_digits (raw : pyval) :
  validate_phone raw =
  match raw with
  | PStr s => phone_shape isdecimal (strip s)
  | _ => false
  end.
Proof.
  destruct raw; try reflexivity. apply PHONE_REGEX_strip.
Qed.

(** C3 as stated fails: seven Arabic-Indic digits (U+0661..U+0667) are
    accepted by [validate_phone], and they are not ASCII digits. *)
Lemma validate_phone_not_ascii_only :
  let raw := PStr [0x661; 0x662; 0x663; 0x664; 0x665; 0x666; 0x667]%N in
  validate_phone raw = true /\ spec_validate_phone raw = false.
Proof. split; reflexivity. Qed.

(* ================================================================== *)
(** * Coordinates *)
(* ================================================================== *)

Section Coordinates.

Import PyFloat.

(** The function in one equation: a conversion that raises [TypeError]
    or [ValueError] gives [False], another exception leaves the
    function, and two converted values are compared with the bounds. *)
Lemma validate_lat_lon_eq (lat lon : pyval) :
  validate_lat_lon lat lon =
  match float lat with
  | Ok a =>
      match float lon with
      | Ok b => Ok (lat_in_range a && lon_in_range b)
      | Raise TypeError | Raise ValueError => Ok false
      | Raise e => Raise e
      end
  | Raise TypeError | Raise ValueError => Ok false
  | Raise e => Raise e
  end.
Proof.
  unfold validate_lat_lon, lat_in_range, lon_in_range, in_interval.
  destruct (float lat) as [a|[]]; try reflexivity.
  destruct (float lon) as [b|[]]; try reflexivity.
  match goal with |- (if negb ?c then _ else _) = _ => destruct c end;
    reflexivity.
Qed.

(** The only exception [float] raises on a JSON value besides
    [TypeError] and [ValueError] is [OverflowError], on an [int]. *)
Lemma float_raises (x : pyval) (e : exn) :
  float x = Raise e ->
  e = TypeError \/ e = ValueError
  \/ (e = OverflowError /\ exists z, x = PInt z).
Proof.
  destruct x as [|b|z|f|s|l|d]; simpl; try discriminate;
    try (intros [= <-]; auto).
  - unfold of_int. destruct (is_inf (of_Z z)); [|discriminate].
    intros [= <-]. right; right; eauto.
  - destruct (of_str s); [discriminate|]. intros [= <-]; auto.
Qed.

Lemma validate_lat_lon_true (lat lon : pyval) :
  validate_lat_lon lat lon = Ok true <->
  exists a b, float lat = Ok a /\ float lon = Ok b
              /\ lat_in_range a = true /\ lon_in_range b = true.
Proof.
  rewrite validate_lat_lon_eq. split.
  - destruct (float lat) as [a|[]]; try discriminate.
    destruct (float lon) as [b|[]]; try discriminate.
    intros [= H]. apply andb_prop in H. exists a, b; tauto.
  - intros (a & b & -> & -> & -> & ->). reflexivity.
Qed.

Lemma not_finite_out_of_range (a : spec_float) :
  is_finite a = false -> lat_in_range a = false /\ lon_in_range a = false.
Proof.
  destruct a as [s|[|]| |s m e]; try discriminate; intros _;
    split; vm_compute; reflexivity.
Qed.

End Coordinates.

Section Meaning.

Local Open Scope Z_scope.
Import PyFloat.

Lemma digits2_pos_bounds (m : positive) :
  2 ^ (Zpos (digits2_pos m) - 1) <= Zpos m < 2 ^ Zpos (digits2_pos m).
Proof.
  induction m as [m IH|m IH|]; simpl digits2_pos.
  - rewrite Pos2Z.inj_succ. replace (Z.succ (Zpos (digits2_pos m)) - 1) with (Z.succ (Zpos (digits2_pos m) - 1)) by lia.
    rewrite !Z.pow_succ_r by lia. lia.
  - rewrite Pos2Z.inj_succ. replace (Z.succ (Zpos (digits2_pos m)) - 1) with (Z.succ (Zpos (digits2_pos m) - 1)) by lia.
    rewrite !Z.pow_succ_r by lia. lia.
  - simpl. lia.
Qed.

Lemma canonical_digits (m : positive) (e : Z) :
  canonical_mantissa 53 1024 m e = true ->
  Zpos (digits2_pos m) <= 53 /\ (-1074 < e -> Zpos (digits2_pos m) = 53).
Proof.
  unfold canonical_mantissa, fexp, emin. rewrite Z.eqb_eq. lia.
Qed.

Lemma magnitude_test (C j : Z) (m : positive) (e : Z) :
  0 <= j <= 52 -> 2 ^ 52 <= C * 2 ^ j < 2 ^ 53 ->
  canonical_mantissa 53 1024 m e = true ->
  ((e <? - j) || ((e =? - j) && (Zpos m <=? C * 2 ^ j)) = true
   <-> magnitude_le m e C).
Proof.
  intros Hj HC Hc. apply canonical_digits in Hc. destruct Hc as [Hd Hn].
  pose proof (digits2_pos_bounds m) as Hm.
  assert (Hlt : Zpos m < 2 ^ 53).
  { eapply Z.lt_le_trans; [apply Hm|]. apply Z.pow_le_mono_r; lia. }
  assert (H2j : 0 < 2 ^ j) by (apply Z.pow_pos_nonneg; lia).
  destruct (Z.ltb_spec e (- j)) as [He|He]; cbn [orb].
  - split; [intros _|reflexivity].
    destruct e as [|k|k]; try lia. unfold magnitude_le.
    replace (Zpos k) with (j + (Zpos k - j)) by lia.
    rewrite Z.pow_add_r by lia.
    assert (2 ^ 1 <= 2 ^ (Zpos k - j)) by (apply Z.pow_le_mono_r; lia).
    change (2 ^ 1) with 2 in *. nia.
  - destruct (Z.eqb_spec e (- j)) as [->|Hne]; cbn [andb].
    + rewrite Z.leb_le. unfold magnitude_le.
      destruct j as [|j|j]; simpl Z.opp; lia.
    + split; [discriminate|]. intros Hmag. exfalso.
      assert (Hge : 2 ^ 52 <= Zpos m).
      { rewrite Hn in Hm by lia. apply Hm. }
      unfold magnitude_le in Hmag. destruct e as [|k|k].
      * change (2 ^ 0) with 1 in Hmag.
        assert (2 ^ 1 <= 2 ^ j) by (apply Z.pow_le_mono_r; lia).
        change (2 ^ 1) with 2 in *. nia.
      * assert (0 < 2 ^ Zpos k) by (apply Z.pow_pos_nonneg; lia).
        destruct (Z.eq_dec j 0) as [->|Hj0].
        -- change (2 ^ 0) with 1 in *.
           assert (2 ^ 1 <= 2 ^ Zpos k) by (apply Z.pow_le_mono_r; lia).
           change (2 ^ 1) with 2 in *. nia.
        -- assert (2 ^ 1 <= 2 ^ j) by (apply Z.pow_le_mono_r; lia).
           change (2 ^ 1) with 2 in *. nia.
      * assert (Hk : Zpos k < j) by lia.
        replace j with (Zpos k + (j - Zpos k)) in HC by lia.
        rewrite Z.pow_add_r in HC by lia.
        assert (2 ^ 1 <= 2 ^ (j - Zpos k)) by (apply Z.pow_le_mono_r; lia).
        assert (0 < 2 ^ Zpos k) by (apply Z.pow_pos_nonneg; lia).
        change (2 ^ 1) with 2 in *. nia.
Qed.

Lemma SFleb_pos_pos (m M : positive) (e E : Z) :
  SFleb (S754_finite false m e) (S754_finite false M E)
  = (e <? E) || ((e =? E) && (Zpos m <=? Zpos M)).
Proof.
  unfold SFleb, SFcompare.
  change (Pos.compare_cont Eq m M) with (m ?= M)%positive.
  destruct (Z.compare_spec e E) as [->|H|H].
  - rewrite Z.ltb_irrefl, Z.eqb_refl. cbn [orb andb].
    destruct (Pos.compare_spec m M); destruct (Z.leb_spec (Zpos m) (Zpos M));
      try reflexivity; lia.
  - apply Z.ltb_lt in H. now rewrite H.
  - destruct (Z.ltb_spec e E); [lia|].
    destruct (Z.eqb_spec e E); [lia|]. reflexivity.
Qed.

Lemma SFleb_neg_neg (m M : positive) (e E : Z) :
  SFleb (S754_finite true M E) (S754_finite true m e)
  = (e <? E) || ((e =? E) && (Zpos m <=? Zpos M)).
Proof.
  unfold SFleb, SFcompare.
  change (Pos.compare_cont Eq M m) with (M ?= m)%positive.
  destruct (Z.compare_spec E e) as [->|H|H].
  - rewrite Z.ltb_irrefl, Z.eqb_refl. cbn [orb andb].
    destruct (Pos.compare_spec M m); destruct (Z.leb_spec (Zpos m) (Zpos M));
      try reflexivity; lia.
  - destruct (Z.ltb_spec e E); [lia|].
    destruct (Z.eqb_spec e E); [lia|]. reflexivity.
  - apply Z.ltb_lt in H. now rewrite H.
Qed.

Lemma within_finite (C : Z) (s : bool) (m : positive) (e : Z) :
  0 < C ->
  within (- C) C (S754_finite s m e) <-> magnitude_le m e C.
Proof.
  intros HC. unfold within, to_Q, magnitude_le, Qle.
  destruct e as [|k|k]; destruct s; cbn [cond_Zopp Qnum Qden inject_Z];
    rewrite ?Pos2Z.inj_pow; 
    try (assert (0 < 2 ^ Zpos k) by (apply Z.pow_pos_nonneg; lia));
    change (2 ^ 0) with 1; nia.
Qed.

Lemma in_interval_meaning (C j : Z) (M : positive) (a : spec_float) :
  0 <= j <= 52 -> 2 ^ 52 <= C * 2 ^ j < 2 ^ 53 -> Zpos M = C * 2 ^ j ->
  valid_binary 53 1024 a = true ->
  in_interval (S754_finite true M (- j)) (S754_finite false M (- j)) a = true
  <-> within (- C) C a.
Proof.
  intros Hj HC HM Hv.
  assert (HC0 : 0 < C).
  { assert (0 < 2 ^ j) by (apply Z.pow_pos_nonneg; lia). nia. }
  destruct a as [s|s| |s m e].
  - unfold within, to_Q, Qle; simpl. split; [lia|]. now destruct s.
  - unfold in_interval, PyFloat.leb, within. destruct s; simpl;
      (split; [discriminate|contradiction]).
  - unfold in_interval, PyFloat.leb, within. simpl. split; [discriminate|contradiction].
  - rewrite within_finite by exact HC0.
    simpl in Hv. unfold bounded in Hv. apply andb_prop in Hv.
    destruct Hv as [Hc _].
    rewrite <- (magnitude_test C j m e Hj HC Hc), <- HM.
    unfold in_interval, PyFloat.leb. destruct s.
    + rewrite SFleb_neg_neg. 
      replace (SFleb (S754_finite true m e) (S754_finite false M (- j))) with true by reflexivity.
      now rewrite andb_true_r.
    + rewrite SFleb_pos_pos.
      replace (SFleb (S754_finite true M (- j)) (S754_finite false m e)) with true by reflexivity.
      reflexivity.
Qed.

(** For a binary64 value the range tests say what they seem to say:
    the number it stands for lies between the bounds. *)
Lemma lat_in_range_meaning (a : spec_float) :
  valid_binary prec emax a = true ->
  lat_in_range a = true <-> within (-90) 90 a.
Proof.
  intros Hv. unfold lat_in_range.
  replace (lit (-900) 1) with (S754_finite true 6333186975989760 (- 46))
    by (vm_compute; reflexivity).
  replace (lit 900 1) with (S754_finite false 6333186975989760 (- 46))
    by (vm_compute; reflexivity).
  apply (in_interval_meaning 90 46); try exact Hv; try reflexivity.
  - lia.
  - vm_compute. split; [discriminate|reflexivity].
Qed.

Lemma lon_in_range_meaning (b : spec_float) :
  valid_binary prec emax b = true ->
  lon_in_range b = true <-> within (-180) 180 b.
Proof.
  intros Hv. unfold lon_in_range.
  replace (lit (-1800) 1) with (S754_finite true 6333186975989760 (- 45))
    by (vm_compute; reflexivity).
  replace (lit 1800 1) with (S754_finite false 6333186975989760 (- 45))
    by (vm_compute; reflexivity).
  apply (in_interval_meaning 180 45); try exact Hv; try reflexivity.
  - lia.
  - vm_compute. split; [discriminate|reflexivity].
Qed.

End Meaning.

(** C4: [validate_lat_lon] returns [True] exactly when both arguments
    convert to floats, the latitude within [-90.0, 90.0] and the longitude
    within [-180.0, 180.0]; for two binary64 numbers that is: the numbers
    they stand for lie in [[-90, 90]] and [[-180, 180]]. The bounds
    themselves are accepted, as floats or as integers, and ["abc"] and
    [90.0001] are rejected. The only way not to return at all is the
    [OverflowError] of an [int] beyond the range of floats. *)
Theorem validate_lat_lon_spec :
  (forall lat lon,
      validate_lat_lon lat lon = Ok true <->
      exists a b, PyFloat.float lat = Ok a /\ PyFloat.float lon = Ok b
                  /\ lat_in_range a = true /\ lon_in_range b = true)
  /\ (forall a b,
         valid_binary PyFloat.prec PyFloat.emax a = true ->
         valid_binary PyFloat.prec PyFloat.emax b = true ->
         validate_lat_lon (PFloat a) (PFloat b) = Ok true <->
         within (-90) 90 a /\ within (-180) 180 b)
  /\ (forall lat lon e, validate_lat_lon lat lon = Raise e -> e = OverflowError)
  /\ validate_lat_lon (PFloat (PyFloat.lit 900 1)) (PFloat (PyFloat.lit 1800 1)) = Ok true
  /\ validate_lat_lon (PFloat (PyFloat.lit (-900) 1)) (PFloat (PyFloat.lit (-1800) 1)) = Ok true
  /\ validate_lat_lon (PInt 90) (PInt 180) = Ok true
  /\ validate_lat_lon (PInt (-90)) (PInt (-180)) = Ok true
  /\ validate_lat_lon (PFloat (PyFloat.lit 900001 4)) (PInt 0) = Ok false
  /\ validate_lat_lon (PStr (u "abc")) (PInt 0) = Ok false.
Proof.
  split; [exact validate_lat_lon_true|].
  split.
  { intros a b Ha Hb. rewrite validate_lat_lon_true.
    rewrite <- (lat_in_range_meaning a Ha), <- (lon_in_range_meaning b Hb).
    split.
    - intros (a' & b' & [= <-] & [= <-] & H). exact H.
    - intros H. exists a, b. simpl. tauto. }
  split; [|repeat split; vm_compute; reflexivity].
  intros lat lon e. rewrite validate_lat_lon_eq.
  destruct (PyFloat.float lat) as [a|x] eqn:Ha.
  - destruct (PyFloat.float lon) as [b|y] eqn:Hb; [discriminate|].
    apply float_raises in Hb.
    destruct Hb as [->|[->|[-> _]]]; try discriminate. now intros [= <-].
  - apply float_raises in Ha.
    destruct Ha as [->|[->|[-> _]]]; try discriminate. now intros [= <-].
Qed.

(** The latitude 45.0 with the longitude 90.0. *)
Lemma validate_lat_lon_spec_witness :
  validate_lat_lon (PFloat (PyFloat.lit 450 1)) (PFloat (PyFloat.lit 900 1)) = Ok true
  <-> within (-90) 90 (PyFloat.lit 450 1) /\ within (-180) 180 (PyFloat.lit 900 1).
Proof.
  apply (proj1 (proj2 validate_lat_lon_spec)); vm_compute; reflexivity.
Defined.

(** C10: whatever the type of the arguments, when both convert the answer
    is the range test on the converted values, so a numeric string such
    as ["45.0"] and a boolean are accepted like numbers; and when a
    converted value is a NaN or an infinity the answer is [False]. *)
Theorem validate_lat_lon_any_convertible (lat lon : pyval) (a b : spec_float) :
  PyFloat.float lat = Ok a ->
  PyFloat.float lon = Ok b ->
  validate_lat_lon lat lon = Ok (lat_in_range a && lon_in_range b)
  /\ (is_finite a = false \/ is_finite b = false ->
      validate_lat_lon lat lon = Ok false).
Proof.
  intros Ha Hb. rewrite validate_lat_lon_eq, Ha, Hb. split; [reflexivity|].
  intros [H|H]; apply not_finite_out_of_range in H; destruct H as [H1 H2].
  - now rewrite H1.
  - rewrite H2. now rewrite andb_false_r.
Qed.

(** The string ["45.0"] and [True] convert to [45.0] and [1.0] and are
    accepted; ["nan"] converts to a NaN and is refused. *)
Lemma validate_lat_lon_any_convertible_witness :
  (PyFloat.float (PStr (u "45.0")) = Ok (PyFloat.lit 450 1)
   /\ PyFloat.float (PBool true) = Ok (PyFloat.lit 10 1)
   /\ validate_lat_lon (PStr (u "45.0")) (PBool true) = Ok true)
  /\ (PyFloat.float (PStr (u "nan")) = Ok S754_nan
      /\ validate_lat_lon (PStr (u "nan")) (PBool true) = Ok false).
Proof.
  split.
  - split; [reflexivity|]. split; [reflexivity|].
    apply (validate_lat_lon_any_convertible
             (PStr (u "45.0")) (PBool true)
             (PyFloat.lit 450 1) (PyFloat.lit 10 1)); reflexivity.
  - split; [reflexivity|].
    apply (validate_lat_lon_any_convertible
             (PStr (u "nan")) (PBool true) S754_nan (PyFloat.lit 10 1));
      [reflexivity | reflexivity | left; reflexivity].
Defined.

(* ================================================================== *)
(** * The collection *)
(* ================================================================== *)

Section Collection.

Import Mongo.

Lemma eqb_eq (a b : str) : PyStr.eqb a b = true <-> a = b.
Proof.
  unfold PyStr.eqb. destruct (list_eq_dec N.eq_dec a b); split;
    congruence.
Qed.

Lemma eqb_refl (a : str) : PyStr.eqb a a = true.
Proof. now apply eqb_eq. Qed.

Lemma eqb_neq (a b : str) : a <> b -> PyStr.eqb a b = false.
Proof.
  unfold PyStr.eqb. destruct (list_eq_dec N.eq_dec a b); congruence.
Qed.

Lemma has_phone_iff (p : str) (d : document) :
  has_phone p d = true <-> phone d = p.
Proof. apply eqb_eq. Qed.

(** An update in place keeps every key where it is. *)
Lemma set_first_Some (p : str) (l : coords) (t : datetime) (c c' : collection) :
  set_first p l t c = Some c' ->
  map phone c' = map phone c /\ In p (map phone c).
Proof.
  revert c'; induction c as [|d r IH]; intros c'; simpl; [discriminate|].
  destruct (has_phone p d) eqn:E.
  - intros [= <-]. apply has_phone_iff in E. simpl; auto.
  - destruct (set_first p l t r) as [r'|]; [|discriminate].
    intros [= <-]. destruct (IH r' eq_refl) as [Hm Hi].
    simpl. rewrite Hm. auto.
Qed.

Lemma set_first_None (p : str) (l : coords) (t : datetime) (c : collection) :
  set_first p l t c = None -> ~ In p (map phone c).
Proof.
  induction c as [|d r IH]; simpl; [tauto|].
  destruct (has_phone p d) eqn:E; [discriminate|].
  destruct (set_first p l t r); [discriminate|].
  intros _ [H|H]; [|now apply IH].
  apply has_phone_iff in H. congruence.
Qed.

(** The upsert keeps the unique index. *)
Lemma update_one_unique (p : str) (l : coords) (t : datetime) (c : collection) :
  unique_index c -> unique_index (update_one p l t c).
Proof.
  unfold unique_index, update_one. intros H.
  destruct (set_first p l (bson_datetime t) c) as [c'|] eqn:E.
  - apply set_first_Some in E. destruct E as [-> _]. exact H.
  - apply set_first_None in E. rewrite map_app; simpl.
    apply NoDup_app; [exact H | repeat constructor; intros [] | ].
    intros x Hx [<-|[]]. auto.
Qed.

Lemma find_one_None (p : str) (c : collection) :
  find_one p c = None <-> ~ In p (map phone c).
Proof.
  unfold find_one. induction c as [|d r IH]; simpl; [tauto|].
  destruct (has_phone p d) eqn:E.
  - apply has_phone_iff in E. split; [discriminate|]. tauto.
  - rewrite IH. split; [|tauto].
    intros H [H'|H']; [|tauto]. apply has_phone_iff in H'. congruence.
Qed.

Lemma find_one_set_first (p : str) (l : coords) (t : datetime) (c c' : collection) :
  set_first p l t c = Some c' ->
  find_one p c' = Some {| phone := p; location := l; updated_at := t |}.
Proof.
  unfold find_one. revert c'; induction c as [|d r IH]; intros c'; simpl;
    [discriminate|].
  destruct (has_phone p d) eqn:E.
  - intros [= <-]. simpl. unfold has_phone at 1; simpl.
    fold (has_phone p d). rewrite E.
    apply has_phone_iff in E. now rewrite E.
  - destruct (set_first p l t r) as [r'|]; [|discriminate].
    intros [= <-]. simpl. rewrite E. now apply IH.
Qed.

Lemma find_app_None {A : Type} (f : A -> bool) (x y : list A) :
  find f x = None -> find f (x ++ y) = find f y.
Proof.
  induction x as [|a x IH]; simpl; [reflexivity|].
  destruct (f a); [discriminate|exact IH].
Qed.

Lemma find_app_Some {A : Type} (f : A -> bool) (x y : list A) (a : A) :
  find f x = Some a -> find f (x ++ y) = Some a.
Proof.
  induction x as [|b x IH]; simpl; [discriminate|].
  destruct (f b); [auto|exact IH].
Qed.

(** Reading back what was just written. *)
Lemma find_one_update_same (p : str) (l : coords) (t : datetime) (c : collection) :
  find_one p (update_one p l t c)
  = Some {| phone := p; location := l; updated_at := bson_datetime t |}.
Proof.
  unfold update_one.
  destruct (set_first p l (bson_datetime t) c) as [c'|] eqn:E.
  - now apply find_one_set_first in E.
  - apply set_first_None, find_one_None in E. unfold find_one in *.
    rewrite find_app_None by exact E. simpl.
    unfold has_phone; simpl. now rewrite eqb_refl.
Qed.

Lemma find_one_set_first_other (p q : str) (l : coords) (t : datetime)
  (c c' : collection) :
  p <> q -> set_first q l t c = Some c' -> find_one p c' = find_one p c.
Proof.
  intros Hpq. unfold find_one.
  revert c'; induction c as [|d r IH]; intros c'; simpl; [discriminate|].
  destruct (has_phone q d) eqn:E.
  - intros [= <-]. simpl. apply has_phone_iff in E.
    unfold has_phone; simpl. rewrite E.
    now rewrite (eqb_neq q p) by congruence.
  - destruct (set_first q l t r) as [r'|]; [|discriminate].
    intros [= <-]. simpl. destruct (has_phone p d); [reflexivity|].
    now apply IH.
Qed.

(** A write for one phone leaves the record of another alone. *)
Lemma find_one_update_other (p q : str) (l : coords) (t : datetime) (c : collection) :
  p <> q -> find_one p (update_one q l t c) = find_one p c.
Proof.
  intros Hpq. unfold update_one.
  destruct (set_first q l (bson_datetime t) c) as [c'|] eqn:E.
  - now apply find_one_set_first_other with (p := p) in E.
  - unfold find_one. destruct (find (has_phone p) c) as [d|] eqn:F.
    + now apply find_app_Some.
    + rewrite find_app_None by exact F. simpl.
      unfold has_phone; simpl. now rewrite (eqb_neq q p) by congruence.
Qed.

(** Under the unique index a phone that is present is present once. *)
Lemma count_documents_unique (p : str) (c : collection) :
  unique_index c -> In p (map phone c) -> count_documents p c = 1.
Proof.
  unfold unique_index, count_documents.
  induction c as [|d r IH]; simpl; [tauto|].
  intros Hnd Hin. inversion Hnd as [|x xs Hx Hr]; subst.
  destruct (has_phone p d) eqn:E.
  - apply has_phone_iff in E. subst p. simpl. f_equal.
    assert (Hz : forall r', ~ In (phone d) (map phone r') ->
                 filter (has_phone (phone d)) r' = []).
    { induction r' as [|d' r' IH']; simpl; [reflexivity|].
      intros Hn. destruct (has_phone (phone d) d') eqn:E'.
      - apply has_phone_iff in E'. tauto.
      - apply IH'. tauto. }
    now rewrite Hz.
  - apply IH; [exact Hr|]. destruct Hin as [H|H]; [|exact H].
    apply has_phone_iff in H. congruence.
Qed.

End Collection.

(* ================================================================== *)
(** * The views, run *)
(* ================================================================== *)

(** Closes a case in which the view ends at once: the world is the one
    it started in, and the answer is one of those listed. *)
Ltac no_effect :=
  right; split;
  [ reflexivity
  | repeat (first [ left; reflexivity | right ]);
    try (eexists; reflexivity) ].

(** The same with the finer list of answers used further down. *)
Ltac answered :=
  right; split;
  [ reflexivity
  | repeat (first [ left; reflexivity | right ]);
    try (eexists; repeat split; reflexivity) ].

Section Views.

Variable e : env.

Lemma float_not_None (x : pyval) (a : spec_float) :
  PyFloat.float x = Ok a -> is_None x = false.
Proof. destruct x; simpl; congruence. Qed.

(** A valid request reads the clock once and calls the collection
    once; the answer depends on that one call. *)
Lemma exec_update_location_valid (w : world) (req : request)
  (s : str) (a b : spec_float) :
  valid_post req s a b ->
  exec e (update_location req) w =
  let now := clock e (ticks w) in
  let l := {| latitude := a; longitude := b |} in
  match fault e (List.length (calls w)) with
  | None => (Ok (stored_body (strip s) l now),
             after_update w (strip s) l now None)
  | Some msg => (Ok (database_error msg),
                 after_update w (strip s) l now (Some msg))
  end.
Proof.
  intros (data & lat & lon & Hj & Hd & Hp & Hla & Hlo & Hv & Ha & Hb & Hra & Hrb).
  unfold update_location. rewrite Hj, Hd. cbn [negb eval].
  rewrite Hp, Hla, Hlo. cbn [eval].
  rewrite (float_not_None lat a Ha), (float_not_None lon b Hb), Hv.
  rewrite validate_lat_lon_eq, Ha, Hb, Hra, Hrb.
  cbn [is_None orb negb andb eval exec py_strip ticks calls coll logged].
  destruct (fault e (List.length (calls w))) as [msg|]; reflexivity.
Qed.

(** Every other request is answered without any effect: by a 400, or
    by an exception that leaves the view. *)
Lemma exec_update_location_invalid (w : world) (req : request) :
  (exists s a b, valid_post req s a b)
  \/ (snd (exec e (update_location req) w) = w
      /\ (fst (exec e (update_location req) w) = Ok body_must_be_json
          \/ fst (exec e (update_location req) w) = Ok missing_fields
          \/ fst (exec e (update_location req) w) = Ok invalid_phone
          \/ fst (exec e (update_location req) w) = Ok invalid_coordinates
          \/ exists x, fst (exec e (update_location req) w) = Raise x)).
Proof.
  unfold update_location.
  destruct (is_json req) eqn:Hj; cbn [negb]; [|no_effect].
  destruct (get_json req) as [data|x] eqn:Hd; cbn [eval]; [|no_effect].
  destruct (get data (u "phone")) as [phone|x] eqn:Hp; cbn [eval];
    [|no_effect].
  destruct (get data (u "latitude")) as [lat|x] eqn:Hla; cbn [eval];
    [|no_effect].
  destruct (get data (u "longitude")) as [lon|x] eqn:Hlo; cbn [eval];
    [|no_effect].
  destruct (is_None phone || is_None lat || is_None lon) eqn:Hn;
    [no_effect|].
  destruct (validate_phone phone) eqn:Hv; cbn [negb]; [|no_effect].
  rewrite validate_lat_lon_eq.
  destruct (PyFloat.float lat) as [a|x] eqn:Ha.
  - destruct (PyFloat.float lon) as [b|y] eqn:Hb.
    + destruct (lat_in_range a) eqn:Hra; cbn [andb eval negb];
        [|no_effect].
      destruct (lon_in_range b) eqn:Hrb; cbn [andb eval negb];
        [|no_effect].
      left. destruct phone; try discriminate.
      exists s, a, b, data, lat, lon. tauto.
    + destruct y; no_effect.
  - destruct x; no_effect.
Qed.

Lemma exec_get_latest_location (w : world) (p : str) :
  exec e (get_latest_location p) w =
  if validate_phone (PStr p) then
    match fault e (List.length (calls w)) with
    | Some msg => (Ok (database_error msg), after_find w p (Some msg))
    | None =>
        (Ok match Mongo.find_one p (coll w) with
            | Some d => found_body d
            | None => no_location_found
            end,
         after_find w p None)
    end
  else (Ok (jsonify [(u "error", PStr (u "Invalid phone format."))] 400), w).
Proof.
  unfold get_latest_location.
  destruct (validate_phone (PStr p)); cbn [negb]; [|reflexivity].
  cbn [exec]. destruct (fault e (List.length (calls w))) as [msg|].
  - reflexivity.
  - destruct (Mongo.find_one p (coll w)); reflexivity.
Qed.

End Views.

(* ================================================================== *)
(** * Histories of calls *)
(* ================================================================== *)

Section Histories.

Import Mongo.

Lemma replay_app (cs1 cs2 : list store_call) (c : collection) :
  replay (cs1 ++ cs2) c = replay cs2 (replay cs1 c).
Proof. apply fold_left_app. Qed.

Lemma upserts_app (p : str) (cs1 cs2 : list store_call) :
  upserts p (cs1 ++ cs2) = upserts p cs1 ++ upserts p cs2.
Proof. apply flat_map_app. Qed.

Lemma replay_unique (cs : list store_call) (c : collection) :
  unique_index c -> unique_index (replay cs c).
Proof.
  revert c; induction cs as [|call cs IH]; intros c H; simpl; [exact H|].
  apply IH. destruct call as [q l t [msg|]|q f]; auto.
  now apply update_one_unique.
Qed.

(** Calls that accepted no update of [p] leave its record as it was. *)
Lemma find_one_replay_none (p : str) (cs : list store_call) (c : collection) :
  upserts p cs = [] -> find_one p (replay cs c) = find_one p c.
Proof.
  revert c; induction cs as [|call cs IH]; intros c; [reflexivity|].
  change (call :: cs) with ([call] ++ cs) at 1. rewrite upserts_app.
  intros H. apply app_eq_nil in H. destruct H as [H1 H2].
  simpl. rewrite (IH _ H2).
  destruct call as [q l t [msg|]|q f]; try reflexivity.
  simpl in H1. destruct (PyStr.eqb q p) eqn:E; [discriminate|].
  apply find_one_update_other. intros ->. now rewrite eqb_refl in E.
Qed.





Lemma sorted_app_lt (mid : nat) (ns1 ns2 : list nat) :
  StronglySorted lt ns1 -> StronglySorted lt ns2 ->
  Forall (fun n => n < mid) ns1 -> Forall (fun n => mid <= n) ns2 ->
  StronglySorted lt (ns1 ++ ns2).
Proof.
  intros H1 H2 F1 F2. induction ns1 as [|n ns1 IH]; simpl; [exact H2|].
  inversion H1 as [|a r Hr Ha]; subst. inversion F1 as [|a r Hn Hf]; subst.
  constructor; [auto|].
  apply Forall_app; split; [exact Ha|].
  eapply Forall_impl; [|exact F2]. simpl; intros; lia.
Qed.

Variable e : env.

Lemma stamped_nil (lo hi : nat) : stamped e lo hi [].
Proof. exists []; repeat split; constructor. Qed.

Lemma stamped_no_update (lo hi : nat) (p : str) (f : option str) :
  stamped e lo hi [CallFind p f].
Proof. exists []; repeat split; constructor. Qed.

Lemma stamped_one (n : nat) (p : str) (l : coords) (f : option str) :
  stamped e n (S n) [CallUpdate p l (clock e n) f].
Proof.
  exists [n]; repeat split; repeat constructor; lia.
Qed.

Lemma stamped_app (lo mid hi : nat) (cs1 cs2 : list store_call) :
  lo <= mid <= hi ->
  stamped e lo mid cs1 -> stamped e mid hi cs2 ->
  stamped e lo hi (cs1 ++ cs2).
Proof.
  intros Hm (ns1 & E1 & S1 & F1) (ns2 & E2 & S2 & F2).
  exists (ns1 ++ ns2). unfold update_times in *.
  rewrite flat_map_app, map_app, E1, E2. split; [reflexivity|]. split.
  - apply sorted_app_lt with (mid := mid); auto.
    + eapply Forall_impl; [|exact F1]. simpl; intros; lia.
    + eapply Forall_impl; [|exact F2]. simpl; intros; lia.
  - apply Forall_app; split.
    + eapply Forall_impl; [|exact F1]. simpl; intros; lia.
    + eapply Forall_impl; [|exact F2]. simpl; intros; lia.
Qed.


End Histories.

Section Truncation.

Local Open Scope Z_scope.



End Truncation.

(* ================================================================== *)
(** * Requests, served *)
(* ================================================================== *)

Section Service.

Variable e : env.

Lemma snd_handle (r : http_request) (w : world) :
  snd (handle e r w) = snd (exec e (view r) w).
Proof. unfold handle. now destruct (exec e (view r) w). Qed.

Lemma handle_POST_valid (w : world) (req : request) (s : str) (a b : spec_float) :
  valid_post req s a b ->
  handle e (POST_location req) w =
  let now := clock e (ticks w) in
  let l := {| latitude := a; longitude := b |} in
  match fault e (List.length (calls w)) with
  | None => (stored_body (strip s) l now, after_update w (strip s) l now None)
  | Some msg => (database_error msg, after_update w (strip s) l now (Some msg))
  end.
Proof.
  intros H. unfold handle, view.
  rewrite (exec_update_location_valid e w req s a b H). cbv zeta.
  now destruct (fault e (List.length (calls w))).
Qed.

Lemma handle_GET (w : world) (p : str) :
  handle e (GET_location p) w =
  if validate_phone (PStr p) then
    match fault e (List.length (calls w)) with
    | Some msg => (database_error msg, after_find w p (Some msg))
    | None =>
        (match Mongo.find_one p (coll w) with
         | Some d => found_body d
         | None => no_location_found
         end,
         after_find w p None)
    end
  else (jsonify [(u "error", PStr (u "Invalid phone format."))] 400, w).
Proof.
  unfold handle, view. rewrite exec_get_latest_location.
  destruct (validate_phone (PStr p)); [|reflexivity].
  now destruct (fault e (List.length (calls w))).
Qed.

(** What one request adds to the world: at most one call, with the
    collection following the calls and an update stamped with the one
    reading of the clock. *)
Lemma handle_trace (r : http_request) (w : world) :
  exists cs,
    calls (snd (handle e r w)) = calls w ++ cs
    /\ coll (snd (handle e r w)) = replay cs (coll w)
    /\ ticks w <= ticks (snd (handle e r w))
    /\ stamped e (ticks w) (ticks (snd (handle e r w))) cs
    /\ List.length cs <= 1.
Proof.
  destruct r as [req|p].
  - destruct (exec_update_location_invalid e w req)
      as [(s & a & b & Hv)|[Hw _]].
    + rewrite (handle_POST_valid w req s a b Hv). cbv zeta.
      destruct (fault e (List.length (calls w))) as [msg|];
        eexists; (split; [reflexivity|]); simpl;
        (split; [reflexivity|]); (split; [lia|]);
        (split; [apply stamped_one|lia]).
    + rewrite snd_handle. unfold view. rewrite Hw.
      exists []. rewrite app_nil_r. simpl.
      repeat split; try lia. apply stamped_nil.
  - rewrite handle_GET. destruct (validate_phone (PStr p)).
    + destruct (fault e (List.length (calls w))) as [msg|];
        eexists; (split; [reflexivity|]); simpl;
        (split; [reflexivity|]); (split; [lia|]);
        (split; [apply stamped_no_update|lia]).
    + exists []. rewrite app_nil_r. simpl.
      repeat split; try lia. apply stamped_nil.
Qed.

Lemma snd_serve_cons (r : http_request) (rs : list http_request) (w : world) :
  snd (serve e (r :: rs) w) = snd (serve e rs (snd (handle e r w))).
Proof.
  simpl. destruct (handle e r w) as [resp w1]. simpl.
  now destruct (serve e rs w1).
Qed.

(** The same for a run of requests. *)
Lemma serve_trace (rs : list http_request) (w : world) :
  exists cs,
    calls (snd (serve e rs w)) = calls w ++ cs
    /\ coll (snd (serve e rs w)) = replay cs (coll w)
    /\ ticks w <= ticks (snd (serve e rs w))
    /\ stamped e (ticks w) (ticks (snd (serve e rs w))) cs.
Proof.
  revert w; induction rs as [|r rs IH]; intros w.
  - exists []. simpl. rewrite app_nil_r.
    repeat split; try lia. apply stamped_nil.
  - rewrite snd_serve_cons.
    destruct (handle_trace r w) as (cs1 & C1 & R1 & T1 & S1 & _).
    destruct (IH (snd (handle e r w))) as (cs2 & C2 & R2 & T2 & S2).
    exists (cs1 ++ cs2). rewrite C2, C1, R2, R1, app_assoc, replay_app.
    repeat split; try lia.
    eapply stamped_app; [|exact S1|exact S2]. lia.
Qed.

End Service.

(* ================================================================== *)
(** * The claims about the service *)
(* ================================================================== *)

Lemma valid_post_body (s : str) (lat lon : pyval) (a b : spec_float) :
  validate_phone (PStr s) = true ->
  PyFloat.float lat = Ok a -> PyFloat.float lon = Ok b ->
  lat_in_range a = true -> lon_in_range b = true ->
  valid_post {| is_json := true;
                get_json := Ok (body_of (PStr s) lat lon) |} s a b.
Proof.
  intros Hv Ha Hb Hra Hrb. exists (body_of (PStr s) lat lon), lat, lon.
  repeat split; auto.
Qed.


(** C9, as the code has it: a request that does not announce JSON
    ([request.is_json] is false: the test is on the content type, not on
    the body) is answered 400 with
    [{"error": "Request body must be JSON"}]; the view ends there,
    whatever the body holds, and the world is untouched: nothing is
    validated and the collection is not called. *)
Theorem not_json_is_400 (e : env) (req : request) (w : world) :
  is_json req = false ->
  update_location req
  = Return (jsonify [(u "error", PStr (u "Request body must be JSON"))] 400)
  /\ handle e (POST_location req) w
     = (jsonify [(u "error", PStr (u "Request body must be JSON"))] 400, w).
Proof.
  intros H. unfold handle, view, update_location. rewrite H. split; reflexivity.
Qed.

Lemma not_json_is_400_witness :
  let req := {| is_json := false; get_json := Raise BadRequest |} in
  handle calm (POST_location req) init
  = (jsonify [(u "error", PStr (u "Request body must be JSON"))] 400, init).
Proof.
  apply (not_json_is_400 calm {| is_json := false; get_json := Raise BadRequest |} init).
  reflexivity.
Defined.

(** C9 as stated fails: a body that is not JSON in a request that
    announces JSON passes the test of [request.is_json]; then
    [request.get_json()] raises [BadRequest], which no handler of the
    application catches, and the answer is the 400 page of Flask, not
    [{"error": "Request body must be JSON"}]. *)
Lemma unparsable_body_is_not_that_400 :
  let req := {| is_json := true; get_json := Raise BadRequest |} in
  handle calm (POST_location req) init
  = ({| body := DefaultPage; status := 400 |}, init)
  /\ fst (handle calm (POST_location req) init)
     <> jsonify [(u "error", PStr (u "Request body must be JSON"))] 400.
Proof. split; [reflexivity|discriminate]. Qed.

(** C7: when the call of the collection that a request makes fails with
    message [msg], the answer is 500 with
    [{"error": "Database error", "details": msg}], and that call is the
    only one the request makes: nothing is tried again. This holds for
    the update of POST and the lookup of GET. *)
Theorem store_failure_is_500 (e : env) (r : http_request) (w : world) (msg : str) :
  fault e (List.length (calls w)) = Some msg ->
  calls (snd (handle e r w)) <> calls w ->
  fst (handle e r w)
  = jsonify [(u "error", PStr (u "Database error")); (u "details", PStr msg)] 500
  /\ exists c, calls (snd (handle e r w)) = calls w ++ [c].
Proof.
  intros Hf Hc. destruct r as [req|p].
  - destruct (exec_update_location_invalid e w req)
      as [(s & a & b & Hv)|[Hw _]].
    + rewrite (handle_POST_valid e w req s a b Hv). cbv zeta. rewrite Hf.
      simpl. eauto.
    + rewrite snd_handle in Hc. unfold view in Hc. rewrite Hw in Hc.
      now contradiction Hc.
  - rewrite handle_GET in *. destruct (validate_phone (PStr p)).
    + rewrite Hf. simpl. eauto.
    + now contradiction Hc.
Qed.

Lemma store_failure_is_500_witness :
  fst (handle stormy (post (PStr (u "+15551234567")) (PInt 10) (PInt 20)) init)
  = jsonify [(u "error", PStr (u "Database error"));
             (u "details", PStr (u "connection refused"))] 500
  /\ fst (handle stormy (GET_location (u "+15551234567")) init)
     = jsonify [(u "error", PStr (u "Database error"));
                (u "details", PStr (u "connection refused"))] 500.
Proof.
  split.
  - apply (store_failure_is_500 stormy
             (post (PStr (u "+15551234567")) (PInt 10) (PInt 20)) init
             (u "connection refused")).
    + reflexivity.
    + vm_compute. discriminate.
  - apply (store_failure_is_500 stormy
             (GET_location (u "+15551234567")) init (u "connection refused")).
    + reflexivity.
    + vm_compute. discriminate.
Defined.

(** What holds of C6: for a body that is a JSON object, a missing or
    null field, an invalid phone and coordinates that [validate_lat_lon]
    answers [False] for give three different 400 responses, each without
    any effect. *)
Lemma client_errors (e : env) (w : world) (req : request)
  (d : list (str * pyval)) (phone lat lon : pyval) :
  is_json req = true -> get_json req = Ok (PDict d) ->
  get (PDict d) (u "phone") = Ok phone ->
  get (PDict d) (u "latitude") = Ok lat ->
  get (PDict d) (u "longitude") = Ok lon ->
  (is_None phone || is_None lat || is_None lon = true ->
   handle e (POST_location req) w = (missing_fields, w))
  /\ (is_None phone || is_None lat || is_None lon = false ->
      validate_phone phone = false ->
      handle e (POST_location req) w = (invalid_phone, w))
  /\ (is_None phone || is_None lat || is_None lon = false ->
      validate_phone phone = true ->
      validate_lat_lon lat lon = Ok false ->
      handle e (POST_location req) w = (invalid_coordinates, w))
  /\ missing_fields <> invalid_phone
  /\ missing_fields <> invalid_coordinates
  /\ invalid_phone <> invalid_coordinates.
Proof.
  intros Hj Hd Hp Hla Hlo. unfold handle, view, update_location.
  rewrite Hj, Hd. cbn [negb eval]. rewrite Hp, Hla, Hlo. cbn [eval].
  split; [intros ->; reflexivity|].
  split; [intros -> ->; reflexivity|].
  split; [intros -> -> ->; reflexivity|].
  repeat split; discriminate.
Qed.

(** C6 fails on an integer too large for a float: [float] raises
    [OverflowError], which the [except] clause of [validate_lat_lon] does
    not name, so the request is answered by the handler for 500 and not
    by the 400 for invalid coordinates. A body that is not an object
    ends the same way, [data.get] raising [AttributeError]. *)
Theorem huge_integer_is_500 :
  validate_lat_lon (PInt (10 ^ 400)) (PInt 0) = Raise OverflowError
  /\ handle calm (post (PStr (u "+15551234567")) (PInt (10 ^ 400)) (PInt 0)) init
     = (jsonify [(u "error", PStr (u "Internal server error"))] 500, init)
  /\ handle calm (POST_location {| is_json := true; get_json := Ok (PList []) |}) init
     = (jsonify [(u "error", PStr (u "Internal server error"))] 500, init).
Proof. repeat split; vm_compute; reflexivity. Qed.

(** C8: after any run of requests from the empty collection in which no
    update of the valid phone [p] was accepted, the collection holds no
    record of [p], and [GET /api/location/p] is answered 404 with
    [{"error": "No location found for this phone number"}]. *)
Theorem unknown_phone_is_404 (e : env) (rs : list http_request) (p : str) :
  validate_phone (PStr p) = true ->
  upserts p (calls (snd (serve e rs init))) = [] ->
  fault e (List.length (calls (snd (serve e rs init)))) = None ->
  Mongo.find_one p (coll (snd (serve e rs init))) = None
  /\ fst (handle e (GET_location p) (snd (serve e rs init)))
     = jsonify [(u "error", PStr (u "No location found for this phone number"))] 404.
Proof.
  intros Hv Hu Hf.
  destruct (serve_trace e rs init) as (cs & Hc & Hr & _).
  simpl in Hc, Hr. rewrite Hc in Hu.
  assert (Hn : Mongo.find_one p (coll (snd (serve e rs init))) = None).
  { rewrite Hr, (find_one_replay_none p cs [] Hu). reflexivity. }
  split; [exact Hn|].
  rewrite handle_GET, Hv, Hf, Hn. reflexivity.
Qed.

Lemma unknown_phone_is_404_witness :
  fst (handle calm (GET_location (u "+19999999999"))
         (snd (serve calm [post (PStr (u "+15551234567")) (PInt 10) (PInt 20)] init)))
  = jsonify [(u "error", PStr (u "No location found for this phone number"))] 404.
Proof.
  apply (unknown_phone_is_404 calm
           [post (PStr (u "+15551234567")) (PInt 10) (PInt 20)]
           (u "+19999999999")); reflexivity.
Defined.

(** C1, as the code has it: after a POST of a phone string [s] that
    [validate_phone] accepts with coordinates that [validate_lat_lon]
    accepts, both store calls succeeding, the collection holds under the
    trimmed phone [s.strip()] the converted coordinates
    [(float(lat), float(lon))], and a GET of the trimmed phone is
    answered 200 with exactly those coordinates. The lookup is an exact
    match on the trimmed string written; a GET of [s] itself finds the
    record when [s] has no white space around it. *)
Theorem roundtrip_on_trimmed_phone (e : env) (w : world) (s : str) (lat lon : pyval) :
  validate_phone (PStr s) = true ->
  validate_lat_lon lat lon = Ok true ->
  fault e (List.length (calls w)) = None ->
  fault e (S (List.length (calls w))) = None ->
  exists a b w1,
    PyFloat.float lat = Ok a /\ PyFloat.float lon = Ok b
    /\ handle e (post (PStr s) lat lon) w
       = (jsonify [(u "message", PStr (u "Location stored"));
                   (u "phone", PStr (strip s));
                   (u "location",
                    PDict [(u "latitude", PFloat a); (u "longitude", PFloat b)]);
                   (u "updated_at",
                    PStr (DateTime.isoformat (clock e (ticks w)) ++ u "Z"))] 200,
          w1)
    /\ Mongo.find_one (strip s) (coll w1)
       = Some {| phone := strip s;
                 location := {| latitude := a; longitude := b |};
                 updated_at := Mongo.bson_datetime (clock e (ticks w)) |}
    /\ fst (handle e (GET_location (strip s)) w1)
       = jsonify [(u "phone", PStr (strip s));
                  (u "location",
                   PDict [(u "latitude", PFloat a); (u "longitude", PFloat b)]);
                  (u "updated_at",
                   PStr (DateTime.isoformat
                           (Mongo.bson_datetime (clock e (ticks w))) ++ u "Z"))] 200
    /\ (strip s = s ->
        fst (handle e (GET_location s) w1)
        = jsonify [(u "phone", PStr s);
                   (u "location",
                    PDict [(u "latitude", PFloat a); (u "longitude", PFloat b)]);
                   (u "updated_at",
                    PStr (DateTime.isoformat
                            (Mongo.bson_datetime (clock e (ticks w))) ++ u "Z"))] 200).
Proof.
  intros Hv Hc Hf1 Hf2.
  apply validate_lat_lon_true in Hc.
  destruct Hc as (a & b & Ha & Hb & Hra & Hrb).
  pose proof (valid_post_body s lat lon a b Hv Ha Hb Hra Hrb) as Hp.
  set (l := {| latitude := a; longitude := b |}).
  set (now := clock e (ticks w)).
  exists a, b, (after_update w (strip s) l now None).
  split; [exact Ha|]. split; [exact Hb|].
  split.
  { unfold post. rewrite (handle_POST_valid e w _ s a b Hp). cbv zeta.
    rewrite Hf1. reflexivity. }
  assert (Hfind : Mongo.find_one (strip s) (coll (after_update w (strip s) l now None))
                  = Some {| phone := strip s; location := l;
                            updated_at := Mongo.bson_datetime now |}).
  { simpl. apply find_one_update_same. }
  split; [exact Hfind|].
  assert (Hget : fst (handle e (GET_location (strip s))
                        (after_update w (strip s) l now None))
                 = found_body {| phone := strip s; location := l;
                                 updated_at := Mongo.bson_datetime now |}).
  { rewrite handle_GET.
    assert (Hv' : validate_phone (PStr (strip s)) = true).
    { simpl in *. now rewrite strip_idempotent. }
    rewrite Hv'.
    replace (List.length (calls (after_update w (strip s) l now None)))
      with (S (List.length (calls w)))
      by (simpl; rewrite length_app; simpl; lia).
    rewrite Hf2, Hfind. reflexivity. }
  split; [exact Hget|].
  intros Hs. rewrite Hs in Hget |- *. rewrite Hget. reflexivity.
Qed.

Lemma roundtrip_on_trimmed_phone_witness :
  exists w1,
    Mongo.find_one (u "+15551234567") (coll w1)
    = Some {| phone := u "+15551234567";
              location := {| latitude := PyFloat.lit 374219983 7;
                             longitude := PyFloat.lit (-122084) 3 |};
              updated_at := Mongo.bson_datetime (clock calm 0) |}
    /\ status (fst (handle calm (GET_location (u "+15551234567")) w1)) = 200%Z.
Proof.
  destruct (roundtrip_on_trimmed_phone calm init (u " +15551234567 ")
              (PFloat (PyFloat.lit 374219983 7)) (PStr (u "-122.084")))
    as (a & b & w1 & Ha & Hb & _ & Hfind & Hget & _);
    [vm_compute; reflexivity | vm_compute; reflexivity
     | reflexivity | reflexivity | ].
  exists w1.
  change (strip (u " +15551234567 ")) with (u "+15551234567") in Hfind, Hget.
  assert (Ha' : PyFloat.float (PFloat (PyFloat.lit 374219983 7))
                = Ok (PyFloat.lit 374219983 7)) by reflexivity.
  assert (Hb' : PyFloat.float (PStr (u "-122.084"))
                = Ok (PyFloat.lit (-122084) 3)) by (vm_compute; reflexivity).
  rewrite Ha' in Ha. rewrite Hb' in Hb.
  injection Ha as <-. injection Hb as <-.
  split; [exact Hfind|]. rewrite Hget. reflexivity.
Defined.

(** C1 as stated fails: a phone string with a leading space is accepted
    and stored trimmed, and a GET of the same string, which is accepted
    too, looks it up untrimmed and is answered 404. *)
Lemma roundtrip_untrimmed_phone_is_404 :
  let p := u " +15551234567" in
  let lat := PFloat (PyFloat.lit 374219983 7) in
  let lon := PFloat (PyFloat.lit (-122084) 3) in
  validate_phone (PStr p) = true
  /\ validate_lat_lon lat lon = Ok true
  /\ map status (fst (serve calm [post (PStr p) lat lon; GET_location p] init))
     = [200; 404]%Z.
Proof. repeat split; vm_compute; reflexivity. Qed.




(* ================================================================== *)
(** * Concurrent first writes *)
(* ================================================================== *)

Section Racing.

Variable e : env.
Variable p : str.

(** [exec] is [step] taken to the end. *)
Lemma exec_step {A : Type} (th : prog A) (w : world) :
  exec e th w = exec e (fst (step e th w)) (snd (step e th w)).
Proof.
  destruct th; simpl; try reflexivity;
    destruct (fault e (List.length (calls w))); reflexivity.
Qed.

(** What is left of the view once a request has passed the checks: a
    reading of the clock, the update, the answer. *)
Lemma update_location_thread (req : request) (s : str) (a b : spec_float) :
  valid_post req s a b ->
  update_location req
  = post_thread (strip s) {| latitude := a; longitude := b |}.
Proof.
  intros (data & lat & lon & Hj & Hd & Hp & Hla & Hlo & Hv & Ha & Hb & Hra & Hrb).
  unfold update_location. rewrite Hj, Hd. cbn [negb eval].
  rewrite Hp, Hla, Hlo. cbn [eval].
  rewrite (float_not_None lat a Ha), (float_not_None lon b Hb), Hv.
  rewrite validate_lat_lon_eq, Ha, Hb, Hra, Hrb.
  cbn [is_None orb negb andb eval py_strip].
  reflexivity.
Qed.

Lemma step_thread_at (i : nat) (ts : pool) (w : world) (th : prog response) :
  nth_error ts i = Some th ->
  exists l1 l2,
    ts = l1 ++ th :: l2 /\ List.length l1 = i
    /\ step_thread e i ts w
       = (l1 ++ fst (step e th w) :: l2, snd (step e th w)).
Proof.
  intros H. destruct (nth_error_split ts i H) as (l1 & l2 & -> & Hl).
  exists l1, l2. split; [reflexivity|]. split; [exact Hl|].
  unfold step_thread. rewrite H. destruct (step e th w) as [th' w'].
  cbn [fst snd]. subst i.
  rewrite firstn_app, Nat.sub_diag, firstn_all. cbn [firstn].
  rewrite app_nil_r, skipn_app, skipn_all2 by lia.
  replace (S (List.length l1) - List.length l1) with 1 by lia.
  reflexivity.
Qed.

Lemma step_thread_none (i : nat) (ts : pool) (w : world) :
  nth_error ts i = None -> step_thread e i ts w = (ts, w).
Proof. intros H. unfold step_thread. now rewrite H. Qed.

Lemma calls_made_at (l1 l2 : pool) (th : prog response) :
  calls_made (l1 ++ th :: l2)
  = calls_made l1 + (if called th then 1 else 0) + calls_made l2.
Proof.
  unfold calls_made. rewrite filter_app, length_app. cbn [filter].
  destruct (called th); cbn [List.length]; lia.
Qed.

Lemma answered_200_at (l1 l2 : pool) (th th' : prog response) :
  (answered_200 th' -> answered_200 th) ->
  Exists answered_200 (l1 ++ th' :: l2) ->
  Exists answered_200 (l1 ++ th :: l2).
Proof.
  intros H Hex. apply Exists_app in Hex. apply Exists_app.
  destruct Hex as [Hex|Hex]; [now left|right].
  inversion Hex; subst; [left; auto|now right].
Qed.

(** The step of a request that passed the checks: a step without a
    call, an update that fails, or an update that the collection carries
    out. *)
Lemma step_thread_state (l : coords) (th : prog response) (w : world) :
  thread_state p l th ->
  thread_state p l (fst (step e th w))
  /\ remaining (fst (step e th w)) <= Nat.pred (remaining th)
  /\ ((coll (snd (step e th w)) = coll w
       /\ calls (snd (step e th w)) = calls w
       /\ called (fst (step e th w)) = called th
       /\ other_failure e th w = false
       /\ (answered_200 (fst (step e th w)) -> answered_200 th))
      \/ (exists t msg,
            th = UpdateOne p l t (after_store p l t)
            /\ fault e (List.length (calls w)) = Some msg
            /\ fst (step e th w)
               = LogException (u "Database error while updating location")
                   (Return (database_error msg))
            /\ coll (snd (step e th w)) = coll w
            /\ calls (snd (step e th w))
               = calls w ++ [CallUpdate p l t (Some msg)])
      \/ (exists t,
            th = UpdateOne p l t (after_store p l t)
            /\ fault e (List.length (calls w)) = None
            /\ fst (step e th w) = Return (stored_body p l t)
            /\ coll (snd (step e th w)) = Mongo.update_one p l t (coll w)
            /\ calls (snd (step e th w))
               = calls w ++ [CallUpdate p l t None])).
Proof.
  intros [ |t|msg|msg|t].
  - split; [apply at_update|]. split; [simpl; lia|].
    left. repeat split. intros (resp & H & _). discriminate.
  - cbn [step]. destruct (fault e (List.length (calls w))) as [msg|] eqn:F.
    + split; [apply (at_log p l msg)|]. split; [simpl; lia|].
      right; left. exists t, msg. repeat split.
    + split; [apply (at_success p l t)|]. split; [simpl; lia|].
      right; right. exists t. repeat split.
  - split; [apply at_failure|]. split; [simpl; lia|].
    left. repeat split. intros (resp & [= <-] & H). discriminate.
  - split; [apply at_failure|]. split; [simpl; lia|].
    left. repeat split. auto.
  - split; [apply at_success|]. split; [simpl; lia|].
    left. repeat split. auto.
Qed.

(** A request that has its 200 has made its call. *)
Lemma answered_200_state (l : coords) (th : prog response) :
  thread_state p l th -> answered_200 th ->
  exists t, th = Return (stored_body p l t).
Proof.
  intros [ |t|msg|msg|t] (resp & H & Hs); try discriminate.
  - injection H as <-. discriminate.
  - now exists t.
Qed.

Lemma count_documents_le_1 (q : str) (c : Mongo.collection) :
  Mongo.unique_index c -> Mongo.count_documents q c <= 1.
Proof.
  intros Hu. destruct (Mongo.find_one q c) as [d|] eqn:F.
  - rewrite count_documents_unique; [lia|exact Hu|].
    destruct (in_dec (list_eq_dec N.eq_dec) q (map phone c)) as [H|H];
      [exact H|]. apply find_one_None in H. congruence.
  - unfold Mongo.count_documents. unfold Mongo.find_one in F.
    assert (H : filter (Mongo.has_phone q) c = []).
    { clear Hu. induction c as [|d r IH]; simpl in *; [reflexivity|].
      destruct (Mongo.has_phone q d); [discriminate|auto]. }
    rewrite H. simpl. lia.
Qed.

Lemma update_one_present (q : str) (l : coords) (t : datetime)
  (c : Mongo.collection) :
  In q (map phone (Mongo.update_one q l t c)).
Proof.
  unfold Mongo.update_one.
  destruct (Mongo.set_first q l (Mongo.bson_datetime t) c) as [c'|] eqn:E.
  - apply set_first_Some in E. destruct E as [-> H]. exact H.
  - rewrite map_app. apply in_or_app. right. now left.
Qed.

(** Whatever request moves, what holds of the requests in progress
    goes on holding. *)
Lemma racing_inv_step (ls : list coords) (w0 : world) (i : nat) (ts : pool)
  (w : world) :
  racing_inv p ls w0 ts w ->
  racing_inv p ls w0 (fst (step_thread e i ts w)) (snd (step_thread e i ts w)).
Proof.
  intros (Hu & Hts & (cs & Hcs & Hup & Hlen) & Hoth & Hok & Hloc).
  destruct (nth_error ts i) as [th|] eqn:Hi;
    [|rewrite step_thread_none by exact Hi; repeat split; eauto].
  destruct (step_thread_at i ts w th Hi) as (l1 & l2 & -> & _ & ->).
  cbn [fst snd]. unfold racing_inv.
  destruct (Forall2_app_inv_r _ _ Hts) as (ls1 & ls2' & H1 & H2 & ->).
  inversion H2 as [|l th0 ls2 l20 Hth H2']; subst.
  destruct (step_thread_state l th w Hth) as (Hth' & _ & Hstep).
  assert (Hts' : Forall2 (thread_state p) (ls1 ++ l :: ls2)
                   (l1 ++ fst (step e th w) :: l2)).
  { apply Forall2_app; [exact H1|]. constructor; assumption. }
  rewrite calls_made_at in Hlen.
  destruct Hstep as [(Hc & Hk & Hcalled & _ & H200)
                    |[(t & msg & Hth0 & F & Hfst & Hc & Hk)
                     |(t & Hth0 & F & Hfst & Hc & Hk)]].
  - rewrite Hc, Hk. split; [exact Hu|]. split; [exact Hts'|].
    split; [|split; [exact Hoth|split; [|exact Hloc]]].
    + exists cs. split; [exact Hcs|]. split; [exact Hup|].
      rewrite calls_made_at, Hcalled. exact Hlen.
    + intros Hex. apply Hok. revert Hex. now apply answered_200_at.
  - rewrite Hc, Hk. split; [exact Hu|]. split; [exact Hts'|].
    split; [|split; [exact Hoth|split; [|exact Hloc]]].
    + exists (cs ++ [CallUpdate p l t (Some msg)]).
      split; [rewrite Hcs; now rewrite app_assoc|]. split.
      * apply Forall_app. split; [exact Hup|].
        constructor; [|constructor]. now exists l, t, (Some msg).
      * rewrite calls_made_at, length_app, Hfst. rewrite Hth0 in Hlen.
        cbn [called List.length] in *. lia.
    + intros Hex. apply Hok. revert Hex. apply answered_200_at.
      rewrite Hfst. intros (resp & H & _). discriminate.
  - rewrite Hc, Hk. split; [now apply update_one_unique|].
    split; [exact Hts'|]. split; [|split; [|split]].
    + exists (cs ++ [CallUpdate p l t None]).
      split; [rewrite Hcs; now rewrite app_assoc|]. split.
      * apply Forall_app. split; [exact Hup|].
        constructor; [|constructor]. now exists l, t, None.
      * rewrite calls_made_at, length_app, Hfst. rewrite Hth0 in Hlen.
        cbn [called List.length] in *. lia.
    + intros q Hq. rewrite find_one_update_other by exact Hq. now apply Hoth.
    + intros _. apply update_one_present.
    + intros d. rewrite find_one_update_same. intros [= <-]. cbn [location].
      apply in_or_app. right. now left.
Qed.

Lemma racing_inv_interleave (ls : list coords) (w0 : world)
  (sched : list nat) (ts : pool) (w : world) :
  racing_inv p ls w0 ts w ->
  racing_inv p ls w0 (fst (interleave e sched ts w))
    (snd (interleave e sched ts w)).
Proof.
  revert ts w. induction sched as [|i sched IH]; intros ts w H; [exact H|].
  cbn [interleave]. pose proof (racing_inv_step ls w0 i ts w H) as H'.
  destruct (step_thread e i ts w) as [ts' w']. now apply IH.
Qed.

(** When updates fail on a duplicate key only, the phone has its
    document from the first call on. *)
Lemma first_call_inserts (ls : list coords) (w0 : world)
  (sched : list nat) (ts : pool) (w : world) :
  racing_inv p ls w0 ts w ->
  (0 < calls_made ts -> In p (map phone (coll w))) ->
  duplicate_key_failures_only e sched ts w = true ->
  0 < calls_made (fst (interleave e sched ts w)) ->
  In p (map phone (coll (snd (interleave e sched ts w)))).
Proof.
  revert ts w. induction sched as [|i sched IH]; intros ts w Hinv Hin Hd;
    [exact Hin|].
  cbn [interleave duplicate_key_failures_only] in *.
  apply andb_true_iff in Hd. destruct Hd as [Hnow Hd].
  pose proof (racing_inv_step ls w0 i ts w Hinv) as Hinv'.
  destruct (nth_error ts i) as [th|] eqn:Hi.
  - destruct (step_thread_at i ts w th Hi) as (l1 & l2 & Hts & _ & Hst).
    rewrite Hst in *. cbn [fst snd] in Hinv'.
    apply IH; [exact Hinv'| |exact Hd].
    destruct Hinv as (_ & Hall & _). subst ts.
    destruct (Forall2_app_inv_r _ _ Hall) as (ls1 & ls2' & _ & H2 & _).
    inversion H2 as [|l th0 ls2 l20 Hth _]; subst.
    rewrite calls_made_at in Hin.
    destruct (step_thread_state l th w Hth)
      as (_ & _ & [(Hc & _ & Hcalled & _ & _)
                  |[(t & msg & Hth0 & F & _ & Hc & _)
                   |(t & _ & _ & _ & Hc & _)]]).
    + rewrite Hc, calls_made_at, Hcalled. exact Hin.
    + intros _. rewrite Hc. apply negb_true_iff in Hnow.
      rewrite Hth0 in Hnow. cbn [other_failure] in Hnow. rewrite F in Hnow.
      destruct (Mongo.find_one p (coll w)) as [d|] eqn:Fd; [|discriminate].
      destruct (in_dec (list_eq_dec N.eq_dec) p (map phone (coll w)))
        as [H|H]; [exact H|].
      apply find_one_None in H. congruence.
    + intros _. rewrite Hc. apply update_one_present.
  - rewrite step_thread_none in * by exact Hi. now apply IH.
Qed.

(** A request that is let move as often as it has steps left comes to
    its end. *)
Lemma interleave_finishes (ls : list coords) (sched : list nat) (ts : pool)
  (w : world) :
  Forall2 (thread_state p) ls ts ->
  (forall i th, nth_error ts i = Some th ->
                remaining th <= count_occ Nat.eq_dec sched i) ->
  forallb finished (fst (interleave e sched ts w)) = true.
Proof.
  revert ls ts w. induction sched as [|i sched IH]; intros ls ts w Hts Hrem.
  - cbn [interleave fst]. apply forallb_forall. intros th Hin.
    apply In_nth_error in Hin. destruct Hin as [j Hj].
    apply Hrem in Hj. cbn [count_occ] in Hj.
    destruct th; cbn [remaining] in Hj; try lia; reflexivity.
  - cbn [interleave].
    destruct (nth_error ts i) as [th|] eqn:Hi.
    + destruct (step_thread_at i ts w th Hi) as (l1 & l2 & -> & <- & ->).
      destruct (Forall2_app_inv_r _ _ Hts) as (ls1 & ls2' & H1 & H2 & Hls).
      inversion H2 as [|l th0 ls2 l20 Hth H2']; subst ls2' th0 l20.
      destruct (step_thread_state l th w Hth) as (Hth' & Hless & _).
      apply (IH ls).
      * rewrite Hls. apply Forall2_app; [exact H1|]. now constructor.
      * intros j th' Hj.
        destruct (Nat.eq_dec (List.length l1) j) as [<-|Hne].
        -- rewrite nth_error_app2, Nat.sub_diag in Hj by lia.
           injection Hj as <-.
           pose proof (Hrem (List.length l1) th Hi) as Hr.
           cbn [count_occ] in Hr.
           destruct (Nat.eq_dec (List.length l1) (List.length l1)) as [_|C];
             [lia|now contradiction C].
        -- assert (Hsame : nth_error (l1 ++ th :: l2) j = Some th').
           { destruct (Nat.lt_ge_cases j (List.length l1)) as [Hlt|Hge].
             - rewrite nth_error_app1 in * by exact Hlt. exact Hj.
             - rewrite nth_error_app2 in * by exact Hge.
               destruct (j - List.length l1) as [|k] eqn:Hk; [lia|].
               exact Hj. }
           apply Hrem in Hsame. cbn [count_occ] in Hsame.
           destruct (Nat.eq_dec (List.length l1) j) as [C|_];
             [congruence|exact Hsame].
    + rewrite step_thread_none by exact Hi. apply (IH ls); [exact Hts|].
      intros j th Hj. pose proof (Hrem j th Hj) as Hr.
      cbn [count_occ] in Hr.
      destruct (Nat.eq_dec i j) as [C|_]; [congruence|exact Hr].
Qed.

End Racing.

Lemma post_threads (p : str) (reqs : list request) (ls : list coords) :
  Forall2 (fun req l => exists s,
             valid_post req s (latitude l) (longitude l) /\ strip s = p)
    reqs ls ->
  map update_location reqs = map (post_thread p) ls.
Proof.
  induction 1 as [|req l reqs ls (s & Hv & Hs) _ IH]; [reflexivity|].
  cbn [map]. rewrite IH. f_equal.
  rewrite (update_location_thread req s _ _ Hv), Hs. now destruct l.
Qed.

Lemma racing_inv_start (p : str) (ls : list coords) (w : world) :
  Mongo.unique_index (coll w) ->
  Mongo.find_one p (coll w) = None ->
  racing_inv p ls w (map (post_thread p) ls) w.
Proof.
  intros Hu Hn. repeat split.
  - exact Hu.
  - induction ls as [|l ls IH]; constructor; [apply at_start|exact IH].
  - exists []. repeat split.
    + now rewrite app_nil_r.
    + constructor.
    + induction ls as [|l ls IH]; [reflexivity|exact IH].
  - intros Hex. exfalso. induction ls as [|l ls IH].
    + inversion Hex.
    + inversion Hex as [? ? (resp & H & _)|]; subst; [discriminate|auto].
  - intros d Hd. congruence.
Qed.

Lemma calls_made_start (p : str) (ls : list coords) :
  calls_made (map (post_thread p) ls) = 0.
Proof. induction ls as [|l ls IH]; [reflexivity|exact IH]. Qed.

(** Requests that have ended have answered, and have made their call. *)
Lemma finished_states (p : str) (ls : list coords) (ts : pool) :
  Forall2 (thread_state p) ls ts ->
  forallb finished ts = true ->
  Forall2 (stored_or_failed p) ls ts /\ calls_made ts = List.length ts.
Proof.
  induction 1 as [|l th ls ts Hth _ IH]; [split; [constructor|reflexivity]|].
  cbn [forallb]. intros Hf. apply andb_true_iff in Hf.
  destruct Hf as [Hf Hr]. destruct (IH Hr) as [IH1 IH2].
  change (th :: ts) with ([] ++ th :: ts) at 2.
  rewrite calls_made_at. cbn [calls_made filter List.length Nat.add].
  destruct Hth as [ |t|msg|msg|t]; try discriminate.
  - split; [constructor; [right; now exists msg|exact IH1]|].
    cbn [called]. now rewrite IH2.
  - split; [constructor; [left; now exists t|exact IH1]|].
    cbn [called]. now rewrite IH2.
Qed.

Lemma fair_start (p : str) (ls : list coords) (sched : list nat) :
  fair (List.length ls) sched = true ->
  forall i th, nth_error (map (post_thread p) ls) i = Some th ->
               remaining th <= count_occ Nat.eq_dec sched i.
Proof.
  intros Hf i th Hi. unfold fair in Hf. rewrite forallb_forall in Hf.
  assert (Hlt : i < List.length ls).
  { rewrite <- (length_map (post_thread p)). apply nth_error_Some. congruence. }
  specialize (Hf i). rewrite in_seq in Hf.
  assert (H3 : (3 <=? count_occ Nat.eq_dec sched i) = true) by (apply Hf; lia).
  apply Nat.leb_le in H3.
  apply nth_error_In, in_map_iff in Hi. destruct Hi as (l & <- & _).
  exact H3.
Qed.

(** C5: requests for one new phone served at the same time. [reqs] are
    POSTs that pass the checks, all of the phone [p] once trimmed, with
    the coordinates [ls]; [p] has no document yet, in a collection that
    respects the unique index. Their views run interleaved in any order,
    the collection carrying out each call as a whole. Then a schedule
    that lets every request move three times brings each one to its end.
    At every point of every schedule the unique index holds, [p] has at
    most one document and the documents of the other phones are as they
    were. Once the requests have ended: each has answered, either the
    200 of its coordinates or the 500 [Database error] made of a failure
    of the store, and none was left by an exception; the collection was
    called once per request, each time with the update of [p] and never
    with a lookup; and [p] has exactly one document, with the coordinates
    of one of the requests, as soon as one request has its 200 or
    whenever the only updates that failed found [p] already written (the
    duplicate key errors of the race). *)
Theorem concurrent_first_upserts (e : env) (reqs : list request)
  (ls : list coords) (p : str) (w : world) :
  reqs <> [] ->
  Forall2 (fun req l => exists s,
             valid_post req s (latitude l) (longitude l) /\ strip s = p)
    reqs ls ->
  Mongo.unique_index (coll w) ->
  Mongo.find_one p (coll w) = None ->
  (forall sched,
     fair (List.length reqs) sched = true ->
     forallb finished
       (fst (interleave e sched (map update_location reqs) w)) = true)
  /\ (forall sched ts' w',
        interleave e sched (map update_location reqs) w = (ts', w') ->
        Mongo.unique_index (coll w')
        /\ Mongo.count_documents p (coll w') <= 1
        /\ (forall q, q <> p ->
              Mongo.find_one q (coll w') = Mongo.find_one q (coll w))
        /\ (forallb finished ts' = true ->
            Forall2 (stored_or_failed p) ls ts'
            /\ (exists cs, calls w' = calls w ++ cs
                           /\ List.length cs = List.length reqs
                           /\ Forall (update_of p) cs)
            /\ (Exists answered_200 ts'
                \/ duplicate_key_failures_only e sched
                     (map update_location reqs) w = true ->
                Mongo.count_documents p (coll w') = 1
                /\ exists d, Mongo.find_one p (coll w') = Some d
                             /\ In (location d) ls))).
Proof.
  intros Hne Hreqs Hu Hnew.
  rewrite (post_threads p reqs ls Hreqs).
  pose proof (Forall2_length Hreqs) as Hlen.
  pose proof (racing_inv_start p ls w Hu Hnew) as Hstart.
  split.
  - intros sched Hfair. apply (interleave_finishes e p ls).
    + now destruct Hstart as (_ & H & _).
    + apply fair_start. now rewrite <- Hlen.
  - intros sched ts' w' Hrun.
    pose proof (racing_inv_interleave e p ls w sched _ w Hstart) as Hinv.
    pose proof (first_call_inserts e p ls w sched _ w Hstart) as Hdup.
    rewrite Hrun in Hinv, Hdup. cbn [fst snd] in Hinv, Hdup.
    destruct Hinv as (Hu' & Hts & (cs & Hcs & Hup & Hl) & Hoth & Hok & Hloc).
    split; [exact Hu'|]. split; [now apply count_documents_le_1|].
    split; [exact Hoth|]. intros Hfin.
    destruct (finished_states p ls ts' Hts Hfin) as [Hans Hmade].
    split; [exact Hans|]. split.
    + exists cs. split; [exact Hcs|]. split; [|exact Hup].
      rewrite Hl, Hmade, <- (Forall2_length Hts). now symmetry.
    + intros Hone.
      assert (Hin : In p (map phone (coll w'))).
      { destruct Hone as [H200|Honly]; [now apply Hok|].
        apply Hdup; [|exact Honly|].
        - rewrite calls_made_start. lia.
        - rewrite Hmade, <- (Forall2_length Hts), <- Hlen.
          destruct reqs; [now contradiction Hne|simpl; lia]. }
      split; [now apply count_documents_unique|].
      destruct (Mongo.find_one p (coll w')) as [d|] eqn:Fd.
      * exists d. split; [reflexivity|now apply Hloc].
      * apply find_one_None in Fd. now contradiction Fd.
Qed.

Lemma concurrent_first_upserts_witness :
  let p := u "+15551234567" in
  let reqs :=
    [ {| is_json := true;
         get_json := Ok (body_of (PStr p) (PInt 10) (PInt 20)) |};
      {| is_json := true;
         get_json := Ok (body_of (PStr (u " +15551234567 ")) (PInt 30) (PInt 40)) |} ] in
  let sched := [0; 1; 1; 0; 0; 1] in
  let run := interleave racing sched (map update_location reqs) init in
  fair 2 sched = true
  /\ duplicate_key_failures_only racing sched (map update_location reqs) init
     = true
  /\ fst run
     = [ Return (database_error (u "E11000 duplicate key error"));
         Return (stored_body p {| latitude := PyFloat.of_Z 30;
                                  longitude := PyFloat.of_Z 40 |}
                   (clock racing 1)) ]
  /\ Mongo.count_documents p (coll (snd run)) = 1
  /\ List.length (calls (snd run)) = 2.
Proof.
  cbv zeta.
  destruct (concurrent_first_upserts racing
              [ {| is_json := true;
                   get_json := Ok (body_of (PStr (u "+15551234567"))
                                     (PInt 10) (PInt 20)) |};
                {| is_json := true;
                   get_json := Ok (body_of (PStr (u " +15551234567 "))
                                     (PInt 30) (PInt 40)) |} ]
              [ {| latitude := PyFloat.of_Z 10; longitude := PyFloat.of_Z 20 |};
                {| latitude := PyFloat.of_Z 30; longitude := PyFloat.of_Z 40 |} ]
              (u "+15551234567") init)
    as [Hend Hrun].
  - discriminate.
  - constructor; [|constructor; [|constructor]].
    + exists (u "+15551234567"). split; [|vm_compute; reflexivity].
      apply valid_post_body; vm_compute; reflexivity.
    + exists (u " +15551234567 "). split; [|vm_compute; reflexivity].
      apply valid_post_body; vm_compute; reflexivity.
  - constructor.
  - reflexivity.
  - split; [vm_compute; reflexivity|].
    split; [vm_compute; reflexivity|].
    split; [vm_compute; reflexivity|].
    destruct (Hrun [0; 1; 1; 0; 0; 1] _ _ (surjective_pairing _))
      as (_ & _ & _ & Hfin).
    destruct (Hfin (Hend [0; 1; 1; 0; 0; 1] eq_refl))
      as (_ & (cs & Hcs & Hl & _) & Hone).
    split.
    + apply Hone. right. vm_compute. reflexivity.
    + rewrite Hcs. exact Hl.
Defined.

(* ================================================================== *)
(** * Beyond the claims: the validation layer *)
(* ================================================================== *)

Section Padding.

Lemma lstrip_all_space (x y : str) :
  all_space x = true -> lstrip (x ++ y) = lstrip y.
Proof.
  unfold all_space. induction x as [|c x IH]; simpl; [reflexivity|].
  intros H. apply andb_prop in H. destruct H as [-> H]. auto.
Qed.

Lemma lstrip_nil_all_space (x : str) : lstrip x = [] -> all_space x = true.
Proof.
  unfold all_space. induction x as [|c x IH]; simpl; [reflexivity|].
  destruct (isspace c); [exact IH|discriminate].
Qed.

Lemma all_space_lstrip (x : str) : all_space x = true -> lstrip x = [].
Proof.
  intros H. rewrite <- (app_nil_r x). now rewrite lstrip_all_space.
Qed.

Lemma lstrip_app_kept (x y : str) :
  lstrip x <> [] -> lstrip (x ++ y) = lstrip x ++ y.
Proof.
  induction x as [|c x IH]; simpl; [congruence|].
  destruct (isspace c); [exact IH|reflexivity].
Qed.

Lemma all_space_rev (x : str) : all_space (rev x) = all_space x.
Proof.
  unfold all_space. induction x as [|c x IH]; simpl; [reflexivity|].
  rewrite forallb_app, IH. simpl. rewrite andb_true_r. apply andb_comm.
Qed.

Lemma all_space_app (x y : str) :
  all_space (x ++ y) = all_space x && all_space y.
Proof. apply forallb_app. Qed.

Lemma rstrip_all_space (x y : str) :
  all_space y = true -> rstrip (x ++ y) = rstrip x.
Proof.
  intros H. unfold rstrip. rewrite rev_app_distr.
  rewrite lstrip_all_space; [reflexivity|]. now rewrite all_space_rev.
Qed.

(** White space around a string does not survive trimming. *)
Lemma strip_padding (pre s post : str) :
  all_space pre = true -> all_space post = true ->
  strip (pre ++ s ++ post) = strip s.
Proof.
  intros Hpre Hpost. unfold strip. rewrite lstrip_all_space by exact Hpre.
  destruct (lstrip s) as [|c t] eqn:E.
  - apply lstrip_nil_all_space in E.
    rewrite all_space_lstrip; [reflexivity|].
    rewrite all_space_app, E, Hpost. reflexivity.
  - rewrite lstrip_app_kept by congruence. rewrite E.
    now apply rstrip_all_space.
Qed.

End Padding.

(** X1: [validate_phone] does not see the white space around a string:
    padding a string with white space on either side does not change the
    answer, and the trimmed form of an accepted string, which is what
    [update_location] stores, is accepted too and has 7 to 16
    characters. *)
Theorem validate_phone_ignores_padding (pre s post : str) :
  all_space pre = true -> all_space post = true ->
  validate_phone (PStr (pre ++ s ++ post)) = validate_phone (PStr s)
  /\ validate_phone (PStr (strip s)) = validate_phone (PStr s)
  /\ (validate_phone (PStr s) = true ->
      7 <= List.length (strip s) <= 16).
Proof.
  intros Hpre Hpost. split; [|split].
  - simpl. now rewrite strip_padding.
  - simpl. now rewrite strip_idempotent.
  - simpl. rewrite PHONE_REGEX_strip, phone_shape_iff.
    intros (sign & ds & -> & [->| ->] & _ & Hl); rewrite length_app; simpl; lia.
Qed.

Lemma validate_phone_ignores_padding_witness :
  validate_phone (PStr (u "  " ++ u "+15551234567" ++ u " ")) = true
  /\ List.length (strip (u "+15551234567")) = 12.
Proof.
  destruct (validate_phone_ignores_padding (u "  ") (u "+15551234567") (u " "))
    as (H1 & _ & _); [reflexivity|reflexivity|].
  split; [rewrite H1|]; reflexivity.
Defined.

(** X2: [validate_lat_lon] lets an exception out exactly when the first
    conversion that fails is that of an integer too large for a float:
    the latitude is such an integer, or the latitude converts and the
    longitude is such an integer. A latitude that does not convert for
    another reason gives [False] whatever the longitude is, so the answer
    to a bad string with a huge integer depends on their order. *)
Theorem validate_lat_lon_raises (lat lon : pyval) (e : exn) :
  validate_lat_lon lat lon = Raise e <->
  e = OverflowError
  /\ ((exists z, lat = PInt z /\ PyFloat.is_inf (PyFloat.of_Z z) = true)
      \/ ((exists a, PyFloat.float lat = Ok a)
          /\ exists z, lon = PInt z /\ PyFloat.is_inf (PyFloat.of_Z z) = true)).
Proof.
  assert (Hint : forall x y, PyFloat.float x = Raise y ->
            y = OverflowError ->
            exists z, x = PInt z /\ PyFloat.is_inf (PyFloat.of_Z z) = true).
  { intros x y H ->. destruct x as [|b|z|f|s|l|d]; simpl in H; try discriminate.
    - unfold PyFloat.of_int in H.
      destruct (PyFloat.is_inf (PyFloat.of_Z z)) eqn:E; [eauto|discriminate].
    - destruct (PyFloat.of_str s); discriminate. }
  assert (Hover : forall z, PyFloat.is_inf (PyFloat.of_Z z) = true ->
            PyFloat.float (PInt z) = Raise OverflowError).
  { intros z H. simpl. unfold PyFloat.of_int. now rewrite H. }
  rewrite validate_lat_lon_eq. split.
  - destruct (PyFloat.float lat) as [a|x] eqn:Ha.
    + destruct (PyFloat.float lon) as [b|y] eqn:Hb; [discriminate|].
      destruct (float_raises lon y Hb) as [->|[->|[-> _]]]; try discriminate.
      intros [= <-]. split; [reflexivity|]. right. split; [eauto|].
      now apply (Hint lon OverflowError).
    + destruct (float_raises lat x Ha) as [->|[->|[-> _]]]; try discriminate.
      intros [= <-]. split; [reflexivity|]. left.
      now apply (Hint lat OverflowError).
  - intros [-> [(z & -> & Hz)|((a & Ha) & z & -> & Hz)]].
    + now rewrite (Hover z Hz).
    + now rewrite Ha, (Hover z Hz).
Qed.

(* ================================================================== *)
(** * Beyond the claims: what the views do to the collection *)
(* ================================================================== *)

Section Conduct.

Import Mongo.

Variable e : env.

Lemma valid_key_strip (s : str) :
  validate_phone (PStr s) = true -> valid_key (strip s).
Proof.
  intros H. split; [|apply strip_idempotent].
  simpl in *. now rewrite strip_idempotent.
Qed.

(** The calls of one request: at most one, well formed, an update for a
    POST and a lookup for a GET. *)
Lemma handle_good_calls (r : http_request) (w : world) :
  exists cs,
    calls (snd (handle e r w)) = calls w ++ cs
    /\ coll (snd (handle e r w)) = replay cs (coll w)
    /\ Forall good_call cs
    /\ List.length cs <= 1
    /\ Forall (fun c => is_update c
                        = match r with
                          | POST_location _ => true
                          | GET_location _ => false
                          end) cs.
Proof.
  destruct r as [req|p].
  - destruct (exec_update_location_invalid e w req)
      as [(s & a & b & Hv)|[Hw _]].
    + rewrite (handle_POST_valid e w req s a b Hv). cbv zeta.
      assert (Hg : forall t f,
                 good_call (CallUpdate (strip s)
                              {| latitude := a; longitude := b |} t f)).
      { intros t f. destruct Hv as (data & lat & lon & _ & _ & _ & _ & _ & Hp & _ & _ & Hra & Hrb).
        simpl. split; [now apply valid_key_strip|]. tauto. }
      destruct (fault e (List.length (calls w))) as [msg|];
        eexists; (split; [reflexivity|]); simpl;
        (split; [reflexivity|]);
        (split; [constructor; [apply Hg|constructor]|]);
        (split; [lia|]); repeat constructor.
    + rewrite snd_handle. unfold view. rewrite Hw.
      exists []. rewrite app_nil_r. simpl. repeat split; auto.
  - rewrite handle_GET. destruct (validate_phone (PStr p)) eqn:Hv.
    + destruct (fault e (List.length (calls w))) as [msg|];
        eexists; (split; [reflexivity|]); simpl;
        (split; [reflexivity|]);
        (split; [constructor; [exact Hv|constructor]|]);
        (split; [lia|]); repeat constructor.
    + exists []. rewrite app_nil_r. simpl. repeat split; auto.
Qed.

Lemma serve_good_calls (rs : list http_request) (w : world) :
  exists cs,
    calls (snd (serve e rs w)) = calls w ++ cs
    /\ coll (snd (serve e rs w)) = replay cs (coll w)
    /\ Forall good_call cs
    /\ List.length cs <= List.length rs.
Proof.
  revert w; induction rs as [|r rs IH]; intros w.
  - exists []. simpl. rewrite app_nil_r. repeat split; auto.
  - rewrite snd_serve_cons.
    destruct (handle_good_calls r w) as (cs1 & C1 & R1 & G1 & L1 & _).
    destruct (IH (snd (handle e r w))) as (cs2 & C2 & R2 & G2 & L2).
    exists (cs1 ++ cs2). rewrite C2, C1, R2, R1, app_assoc, replay_app.
    repeat split; [now apply Forall_app|].
    rewrite length_app. simpl. lia.
Qed.

Lemma set_first_well_formed (p : str) (l : coords) (t : datetime)
  (c c' : collection) :
  lat_in_range (latitude l) = true -> lon_in_range (longitude l) = true ->
  set_first p l t c = Some c' ->
  Forall well_formed c -> Forall well_formed c'.
Proof.
  intros Hla Hlo. revert c'; induction c as [|d r IH]; intros c'; simpl;
    [discriminate|].
  destruct (has_phone p d).
  - intros [= <-] H. inversion H as [|x xs Hd Hr]; subst.
    constructor; [|exact Hr]. destruct Hd as (Hk & _ & _).
    repeat split; simpl; auto; apply Hk.
  - destruct (set_first p l t r) as [r'|]; [|discriminate].
    intros [= <-] H. inversion H as [|x xs Hd Hr]; subst.
    constructor; auto.
Qed.

Lemma replay_well_formed (cs : list store_call) (c : collection) :
  Forall good_call cs -> Forall well_formed c ->
  Forall well_formed (replay cs c).
Proof.
  revert c; induction cs as [|call cs IH]; intros c Hg Hc; simpl; [exact Hc|].
  inversion Hg as [|x xs Hcall Hrest]; subst. apply IH; [exact Hrest|].
  destruct call as [p l t [msg|]|p f]; auto.
  destruct Hcall as (Hk & Hla & Hlo). unfold update_one.
  destruct (set_first p l (bson_datetime t) c) as [c'|] eqn:E.
  - now apply (set_first_well_formed p l (bson_datetime t) c c').
  - apply Forall_app. split; [exact Hc|].
    constructor; [|constructor]. repeat split; simpl; auto; apply Hk.
Qed.

(** The keys after an update: the same, or one more at the end. *)
Lemma update_one_keys (p : str) (l : coords) (t : datetime) (c : collection) :
  (In p (map phone c) /\ map phone (update_one p l t c) = map phone c)
  \/ (~ In p (map phone c)
      /\ map phone (update_one p l t c) = map phone c ++ [p]).
Proof.
  unfold update_one.
  destruct (set_first p l (bson_datetime t) c) as [c'|] eqn:E.
  - left. apply set_first_Some in E. tauto.
  - right. apply set_first_None in E. split; [exact E|].
    rewrite map_app. reflexivity.
Qed.

Lemma replay_keys (cs : list store_call) (c : collection) :
  (forall q, In q (map phone c) -> In q (map phone (replay cs c)))
  /\ List.length c <= List.length (replay cs c) <= List.length c + List.length cs.
Proof.
  revert c; induction cs as [|call cs IH]; intros c; simpl.
  - split; [auto|lia].
  - set (c1 := match call with
               | CallUpdate p l t None => update_one p l t c
               | _ => c
               end).
    assert (H1 : (forall q, In q (map phone c) -> In q (map phone c1))
                 /\ List.length c <= List.length c1 <= S (List.length c)).
    { subst c1. destruct call as [p l t [msg|]|p f]; try (split; [auto|lia]).
      rewrite <- !(length_map phone).
      destruct (update_one_keys p l t c) as [[_ ->]|[_ ->]].
      - split; [auto|lia].
      - split; [intros q Hq; apply in_or_app; auto|].
        rewrite length_app; simpl; lia. }
    destruct (IH c1) as [Hin Hlen]. destruct H1 as [Hin1 Hlen1].
    split; [auto|lia].
Qed.

Lemma get_raises (x : pyval) (key : str) (y : exn) :
  get x key = Raise y -> y = AttributeError.
Proof.
  destruct x; simpl; try (intros [= <-]; reflexivity).
  destruct (find _ d); discriminate.
Qed.

(** What a POST answers and does, case by case. *)
Lemma exec_update_location_answers (w : world) (req : request) :
  (exists s a b, valid_post req s a b)
  \/ (snd (exec e (update_location req) w) = w
      /\ (fst (exec e (update_location req) w) = Ok body_must_be_json
          \/ fst (exec e (update_location req) w) = Ok missing_fields
          \/ fst (exec e (update_location req) w) = Ok invalid_phone
          \/ fst (exec e (update_location req) w) = Ok invalid_coordinates
          \/ fst (exec e (update_location req) w) = Raise AttributeError
          \/ fst (exec e (update_location req) w) = Raise OverflowError
          \/ (exists x, is_json req = true /\ get_json req = Raise x
                        /\ fst (exec e (update_location req) w) = Raise x))).
Proof.
  unfold update_location.
  destruct (is_json req) eqn:Hj; cbn [negb]; [|answered].
  destruct (get_json req) as [data|x] eqn:Hd; cbn [eval]; [|answered].
  destruct (get data (u "phone")) as [phone|x] eqn:Hp; cbn [eval].
  2:{ pose proof (get_raises _ _ _ Hp) as ->. answered. }
  destruct (get data (u "latitude")) as [lat|x] eqn:Hla; cbn [eval].
  2:{ pose proof (get_raises _ _ _ Hla) as ->. answered. }
  destruct (get data (u "longitude")) as [lon|x] eqn:Hlo; cbn [eval].
  2:{ pose proof (get_raises _ _ _ Hlo) as ->. answered. }
  destruct (is_None phone || is_None lat || is_None lon) eqn:Hn;
    [answered|].
  destruct (validate_phone phone) eqn:Hv; cbn [negb]; [|answered].
  rewrite validate_lat_lon_eq.
  destruct (PyFloat.float lat) as [a|x] eqn:Ha.
  - destruct (PyFloat.float lon) as [b|y] eqn:Hb.
    + destruct (lat_in_range a) eqn:Hra; cbn [andb eval negb];
        [|answered].
      destruct (lon_in_range b) eqn:Hrb; cbn [andb eval negb];
        [|answered].
      left. destruct phone; try discriminate.
      exists s, a, b, data, lat, lon. tauto.
    + destruct (float_raises lon y Hb) as [->|[->|[-> _]]]; answered.
  - destruct (float_raises lat x Ha) as [->|[->|[-> _]]]; answered.
Qed.

End Conduct.

Lemma handle_eq (e : env) (r : http_request) (w : world) :
  handle e r w
  = (match fst (exec e (view r) w) with
     | Ok resp => resp
     | Raise x => handle_exception x
     end,
     snd (exec e (view r) w)).
Proof. unfold handle. now destruct (exec e (view r) w). Qed.

Lemma serve_well_formed (e : env) (rs : list http_request) (w : world) :
  Forall well_formed (coll w) ->
  Forall well_formed (coll (snd (serve e rs w))).
Proof.
  intros H. destruct (serve_good_calls e rs w) as (cs & _ & -> & Hg & _).
  now apply replay_well_formed.
Qed.

(** X3: whatever requests are served, the collection only ever holds
    documents that passed validation: the phone of each is an accepted
    string in its trimmed form, and its latitude and longitude pass the
    range tests (so neither is a NaN or an infinity). *)
Theorem stored_documents_well_formed (e : env) (rs : list http_request) (w : world) :
  Forall well_formed (coll w) ->
  Forall well_formed (coll (snd (serve e rs w))).
Proof.
  intros H. destruct (serve_good_calls e rs w) as (cs & _ & -> & Hg & _).
  now apply replay_well_formed.
Qed.

Lemma stored_documents_well_formed_witness :
  Forall well_formed
    (coll (snd (serve calm
                  [post (PStr (u " +15551234567 ")) (PStr (u "45.0")) (PInt 20);
                   post (PStr (u "+15551234567")) (PInt 91) (PInt 0);
                   post (PStr (u "+441234567")) (PBool true) (PFloat (PyFloat.lit (-1800) 1))]
                  init))).
Proof.
  apply (stored_documents_well_formed calm). constructor.
Defined.

(** X4: no request removes a document or a phone: over any run the
    phones present stay present, the number of documents never goes
    down and goes up by at most one per request, and a collection that
    respects the unique index still does. *)
Theorem collection_only_grows (e : env) (rs : list http_request) (w : world) :
  (forall q, In q (map phone (coll w)) ->
             In q (map phone (coll (snd (serve e rs w)))))
  /\ List.length (coll w) <= List.length (coll (snd (serve e rs w)))
     <= List.length (coll w) + List.length rs
  /\ (Mongo.unique_index (coll w) ->
      Mongo.unique_index (coll (snd (serve e rs w)))).
Proof.
  destruct (serve_good_calls e rs w) as (cs & _ & -> & _ & Hl).
  destruct (replay_keys cs (coll w)) as [Hin Hlen].
  split; [exact Hin|]. split; [lia|]. apply replay_unique.
Qed.

(** X5: a request calls the collection at most once: a POST makes no
    lookup before or after its update (the upsert is the one call, there
    is no check followed by a write), and a GET makes no update and
    leaves the collection as it is. *)
Theorem one_call_per_request (e : env) (r : http_request) (w : world) :
  exists cs,
    calls (snd (handle e r w)) = calls w ++ cs
    /\ List.length cs <= 1
    /\ match r with
       | POST_location _ => Forall (fun c => is_update c = true) cs
       | GET_location _ =>
           Forall (fun c => is_update c = false) cs
           /\ coll (snd (handle e r w)) = coll w
       end.
Proof.
  destruct (handle_good_calls e r w) as (cs & Hc & Hr & _ & Hl & Hk).
  exists cs. split; [exact Hc|]. split; [exact Hl|].
  destruct r as [req|p]; [exact Hk|]. split; [exact Hk|].
  rewrite Hr. clear - Hk. induction Hk as [|c cs Hc _ IH]; [reflexivity|].
  destruct c; [discriminate|]. exact IH.
Qed.

(** X6: a POST touches the record of one phone only: the record of any
    phone other than the trimmed phone of the request is after the
    request what it was before, whatever the answer. *)
Theorem post_leaves_other_phones (e : env) (w : world) (req : request) (q : str) :
  (forall data s, get_json req = Ok data ->
                  get data (u "phone") = Ok (PStr s) -> strip s <> q) ->
  Mongo.find_one q (coll (snd (handle e (POST_location req) w)))
  = Mongo.find_one q (coll w).
Proof.
  intros Hq.
  destruct (exec_update_location_invalid e w req)
    as [(s & a & b & Hv)|[Hw _]].
  - rewrite (handle_POST_valid e w req s a b Hv). cbv zeta.
    destruct Hv as (data & lat & lon & _ & Hd & Hp & _).
    specialize (Hq data s Hd Hp).
    destruct (fault e (List.length (calls w))) as [msg|]; simpl;
      [reflexivity|].
    apply find_one_update_other. congruence.
  - rewrite snd_handle. unfold view. now rewrite Hw.
Qed.

Lemma post_leaves_other_phones_witness :
  let w := snd (handle calm (post (PStr (u "+15551234567")) (PInt 10) (PInt 20)) init) in
  Mongo.find_one (u "+15551234567")
    (coll (snd (handle calm (post (PStr (u " +441234567")) (PInt 30) (PInt 40)) w)))
  = Mongo.find_one (u "+15551234567") (coll w).
Proof.
  cbv zeta.
  apply (post_leaves_other_phones calm
           (snd (handle calm (post (PStr (u "+15551234567")) (PInt 10) (PInt 20)) init))
           {| is_json := true;
              get_json := Ok (body_of (PStr (u " +441234567")) (PInt 30) (PInt 40)) |}
           (u "+15551234567")).
  intros data s [= <-] [= <-]. vm_compute. discriminate.
Defined.

(** Closes the four parts of the statement below for one given answer;
    [Herr] says that a body built with an ["error"] message has the
    key. *)
Ltac settle_answer Herr :=
  simpl; repeat split; eauto; try discriminate;
  try (intros Hne; exfalso; apply Hne; reflexivity);
  try (intros _; left; apply Herr);
  try (intros _; right; split; [reflexivity|eauto]).

(** X7: the answers of the two views. A request that reaches
    [update_location] or [get_latest_location] is answered with status
    200, 400, 404 or 500, and [update_location] never answers 404; a
    request answered 400 had no effect at all (no clock reading, no call
    of the collection, no line logged by the view); and every answer
    other than a 200 is a JSON object that has an ["error"] key with a
    message, except the one for a body announced as JSON that does not
    parse, which is Flask's own page. *)
Theorem view_answers (e : env) (r : http_request) (w : world) :
  (status (fst (handle e r w)) = 200
   \/ status (fst (handle e r w)) = 400
   \/ status (fst (handle e r w)) = 404
   \/ status (fst (handle e r w)) = 500)%Z
  /\ (status (fst (handle e r w)) = 404%Z -> exists p, r = GET_location p)
  /\ (status (fst (handle e r w)) = 400%Z -> snd (handle e r w) = w)
  /\ (status (fst (handle e r w)) <> 200%Z ->
      has_error (fst (handle e r w))
      \/ (body (fst (handle e r w)) = DefaultPage
          /\ exists req, r = POST_location req /\ is_json req = true
                         /\ get_json req = Raise BadRequest)).
Proof.
  assert (Herr : forall msg rest code,
             has_error (jsonify ((u "error", PStr msg) :: rest) code)).
  { intros msg rest code. exists msg, ((u "error", PStr msg) :: rest).
    split; [reflexivity|left; reflexivity]. }
  destruct r as [req|p].
  - destruct (exec_update_location_answers e w req)
      as [(s & a & b & Hv)|[Hw Hr]].
    + rewrite (handle_POST_valid e w req s a b Hv). cbv zeta.
      destruct (fault e (List.length (calls w))) as [msg|];
        settle_answer Herr.
    + rewrite handle_eq. unfold view. simpl fst. simpl snd. rewrite Hw.
      destruct Hr as [->|[->|[->|[->|[->|[->|(x & Hj & Hg & ->)]]]]]];
        [settle_answer Herr .. | destruct x; settle_answer Herr].
  - rewrite handle_GET. destruct (validate_phone (PStr p)).
    + destruct (fault e (List.length (calls w))) as [msg|].
      * settle_answer Herr.
      * destruct (Mongo.find_one p (coll w)) as [d|]; settle_answer Herr.
    + settle_answer Herr.
Qed.

(** X8: a GET of an accepted phone, the lookup not failing, is answered
    200 exactly when a document with that very string as phone exists,
    and then with the phone, the coordinates and the [updated_at] of
    that document; the match is exact, so the phone reported is the one
    asked for. *)
Theorem get_found_exactly (e : env) (w : world) (p : str) :
  validate_phone (PStr p) = true ->
  fault e (List.length (calls w)) = None ->
  (status (fst (handle e (GET_location p) w)) = 200%Z
   <-> In p (map phone (coll w)))
  /\ (forall d, Mongo.find_one p (coll w) = Some d ->
        phone d = p
        /\ fst (handle e (GET_location p) w)
           = jsonify [(u "phone", PStr p);
                      (u "location",
                       PDict [(u "latitude", PFloat (latitude (location d)));
                              (u "longitude", PFloat (longitude (location d)))]);
                      (u "updated_at",
                       PStr (DateTime.isoformat (updated_at d) ++ u "Z"))] 200).
Proof.
  intros Hv Hf. rewrite handle_GET, Hv, Hf. simpl fst.
  destruct (Mongo.find_one p (coll w)) as [d|] eqn:E.
  - assert (Hp : phone d = p).
    { unfold Mongo.find_one in E. apply find_some in E.
      now apply has_phone_iff. }
    split.
    + split; [intros _|reflexivity].
      destruct (in_dec (list_eq_dec N.eq_dec) p (map phone (coll w)))
        as [Hi|Hn]; [exact Hi|].
      apply find_one_None in Hn. congruence.
    + intros d' [= <-]. split; [exact Hp|].
      unfold found_body, json_location. now rewrite Hp.
  - split; [|discriminate]. split; [discriminate|].
    intros Hi. apply find_one_None in E. now contradiction E.
Qed.

Lemma get_found_exactly_witness :
  let w := snd (handle calm (post (PStr (u " +15551234567")) (PInt 10) (PInt 20)) init) in
  status (fst (handle calm (GET_location (u "+15551234567")) w)) = 200%Z
  <-> In (u "+15551234567") (map phone (coll w)).
Proof.
  cbv zeta.
  apply (get_found_exactly calm
           (snd (handle calm (post (PStr (u " +15551234567")) (PInt 10) (PInt 20)) init))
           (u "+15551234567")); vm_compute; reflexivity.
Defined.

(** A body without a latitude, a body with a phone that has a letter,
    and a body with a latitude beyond 90. *)
Lemma client_errors_witness :
  handle calm (POST_location
                 {| is_json := true;
                    get_json := Ok (PDict [(u "phone", PStr (u "+15551234567"));
                                           (u "longitude", PInt 0)]) |}) init
  = (missing_fields, init)
  /\ handle calm (post (PStr (u "+1555123456x")) (PInt 91) (PInt 0)) init
     = (invalid_phone, init)
  /\ handle calm (post (PStr (u "+15551234567")) (PInt 91) (PInt 0)) init
     = (invalid_coordinates, init).
Proof.
  split; [|split].
  - apply (client_errors calm init _
             [(u "phone", PStr (u "+15551234567")); (u "longitude", PInt 0)]
             (PStr (u "+15551234567")) PNone (PInt 0));
      vm_compute; reflexivity.
  - apply (client_errors calm init _
             [(u "phone", PStr (u "+1555123456x"));
              (u "latitude", PInt 91); (u "longitude", PInt 0)]
             (PStr (u "+1555123456x")) (PInt 91) (PInt 0));
      vm_compute; reflexivity.
  - apply (client_errors calm init _
             [(u "phone", PStr (u "+15551234567"));
              (u "latitude", PInt 91); (u "longitude", PInt 0)]
             (PStr (u "+15551234567")) (PInt 91) (PInt 0));
      vm_compute; reflexivity.
Defined.

(* ================================================================== *)
(** * Beyond the claims: no history is kept *)
(* ================================================================== *)

Section Absorption.

Import Mongo.

Lemma set_first_None_any (p : str) (l l' : coords) (t t' : datetime)
  (c : collection) :
  set_first p l t c = None -> set_first p l' t' c = None.
Proof.
  induction c as [|d r IH]; simpl; [reflexivity|].
  destruct (has_phone p d); [discriminate|].
  destruct (set_first p l t r); [discriminate|].
  intros _. now rewrite IH.
Qed.

Lemma set_first_twice (p : str) (l l' : coords) (t t' : datetime)
  (c c1 : collection) :
  set_first p l t c = Some c1 ->
  set_first p l' t' c1 = set_first p l' t' c.
Proof.
  revert c1; induction c as [|d r IH]; intros c1; simpl; [discriminate|].
  destruct (has_phone p d) eqn:E.
  - intros [= <-]. simpl. unfold has_phone at 1. simpl.
    fold (has_phone p d). now rewrite E.
  - destruct (set_first p l t r) as [r1|]; [|discriminate].
    intros [= <-]. simpl. rewrite E. now rewrite (IH r1 eq_refl).
Qed.

Lemma set_first_appended (p : str) (l l' : coords) (t t' : datetime)
  (c : collection) :
  set_first p l t c = None ->
  set_first p l' t' (c ++ [{| phone := p; location := l; updated_at := t |}])
  = Some (c ++ [{| phone := p; location := l'; updated_at := t' |}]).
Proof.
  induction c as [|d r IH]; simpl.
  - intros _. unfold has_phone; simpl. now rewrite eqb_refl.
  - destruct (has_phone p d); [discriminate|].
    destruct (set_first p l t r); [discriminate|].
    intros _. now rewrite IH.
Qed.

(** A second update of a phone leaves what it would have left without
    the first. *)
Lemma update_one_absorbs (p : str) (l l' : coords) (t t' : datetime)
  (c : collection) :
  update_one p l' t' (update_one p l t c) = update_one p l' t' c.
Proof.
  unfold update_one.
  destruct (set_first p l (bson_datetime t) c) as [c1|] eqn:E.
  - rewrite (set_first_twice p l l' (bson_datetime t) (bson_datetime t') c c1 E).
    destruct (set_first p l' (bson_datetime t') c) as [c2|] eqn:E'; [reflexivity|].
    apply (set_first_None_any p l' l _ (bson_datetime t)) in E'. congruence.
  - rewrite (set_first_appended p l l' _ (bson_datetime t') c E).
    now rewrite (set_first_None_any p l l' _ (bson_datetime t') c E).
Qed.

End Absorption.

(** X14: no history is kept: when two POSTs for the same trimmed phone
    are accepted one after the other, the collection is left exactly as
    the second alone would have left it at its time; nothing of the first
    write remains, neither its coordinates nor its [updated_at]. *)
Theorem second_write_erases_first (e : env) (w : world) (req1 req2 : request)
  (s1 s2 : str) (a1 b1 a2 b2 : spec_float) :
  valid_post req1 s1 a1 b1 -> valid_post req2 s2 a2 b2 ->
  strip s1 = strip s2 ->
  fault e (List.length (calls w)) = None ->
  fault e (S (List.length (calls w))) = None ->
  coll (snd (handle e (POST_location req2)
               (snd (handle e (POST_location req1) w))))
  = Mongo.update_one (strip s2) {| latitude := a2; longitude := b2 |}
      (clock e (S (ticks w))) (coll w).
Proof.
  intros H1 H2 Hs Hf1 Hf2.
  rewrite (handle_POST_valid e _ req2 s2 a2 b2 H2).
  rewrite (handle_POST_valid e w req1 s1 a1 b1 H1). cbv zeta.
  rewrite Hf1. simpl snd.
  rewrite length_app, Nat.add_comm. simpl List.length. simpl Nat.add.
  rewrite Hf2. simpl. rewrite Hs. apply update_one_absorbs.
Qed.

Lemma second_write_erases_first_witness :
  coll (snd (handle calm
               (post (PStr (u " +15551234567")) (PInt 30) (PInt 40))
               (snd (handle calm
                       (post (PStr (u "+15551234567 ")) (PInt 10) (PInt 20))
                       init))))
  = Mongo.update_one (u "+15551234567")
      {| latitude := PyFloat.of_Z 30; longitude := PyFloat.of_Z 40 |}
      (clock calm 1) [].
Proof.
  apply (second_write_erases_first calm init
           {| is_json := true;
              get_json := Ok (body_of (PStr (u "+15551234567 ")) (PInt 10) (PInt 20)) |}
           {| is_json := true;
              get_json := Ok (body_of (PStr (u " +15551234567")) (PInt 30) (PInt 40)) |}
           (u "+15551234567 ") (u " +15551234567")
           (PyFloat.of_Z 10) (PyFloat.of_Z 20)
           (PyFloat.of_Z 30) (PyFloat.of_Z 40)).
  - apply valid_post_body; vm_compute; reflexivity.
  - apply valid_post_body; vm_compute; reflexivity.
  - vm_compute. reflexivity.
  - reflexivity.
  - reflexivity.
Defined.

(** X15: the lookup does not trim. In a collection that holds only
    documents written by the service, a GET of an accepted phone that
    has white space around it finds nothing: it is answered 404, the
    lookup not failing, even when the trimmed phone has a record. *)
Theorem padded_phone_is_never_found (e : env) (w : world) (p : str) :
  Forall well_formed (coll w) ->
  validate_phone (PStr p) = true ->
  strip p <> p ->
  fault e (List.length (calls w)) = None ->
  fst (handle e (GET_location p) w)
  = jsonify [(u "error", PStr (u "No location found for this phone number"))] 404.
Proof.
  intros Hwf Hv Hs Hf. rewrite handle_GET, Hv, Hf. simpl fst.
  assert (Hn : Mongo.find_one p (coll w) = None).
  { apply find_one_None. intros Hin. apply in_map_iff in Hin.
    destruct Hin as (d & Hd & Hin). rewrite Forall_forall in Hwf.
    destruct (Hwf d Hin) as [[_ Hk] _]. rewrite Hd in Hk. contradiction. }
  now rewrite Hn.
Qed.

Lemma padded_phone_is_never_found_witness :
  fst (handle calm (GET_location (u "+15551234567 "))
         (snd (handle calm (post (PStr (u "+15551234567 ")) (PInt 10) (PInt 20)) init)))
  = jsonify [(u "error", PStr (u "No location found for this phone number"))] 404.
Proof.
  apply (padded_phone_is_never_found calm).
  - change (snd (handle calm (post (PStr (u "+15551234567 ")) (PInt 10) (PInt 20)) init))
      with (snd (serve calm [post (PStr (u "+15551234567 ")) (PInt 10) (PInt 20)] init)).
    apply serve_well_formed. constructor.
  - vm_compute. reflexivity.
  - vm_compute. discriminate.
  - reflexivity.
Defined.
